(** * Taxi booking: the dispatch engine of [models.py]

    A shallow embedding of the [State] class (cars, bookings, clock) and of
    its operations [reset], [book_car], [find_nearest_available_car],
    [increment_time], together with the path and distance helpers of
    [StateBase], followed by the properties of the specification.

    Modelling conventions.
    - Python integers are unbounded: they are [Z].
    - A Python list is a [list]; positions are [nat]; [l !! i] is the
      lookup, [<[i:=v]> l] the in-place store and [delete i l] is [pop(i)].
    - [State.cars] holds distinct [Car] objects, as [reset] creates them; a
      reference to a car object is its position in [cars], and a mutation
      through the reference is a store at that position. [Location] objects
      are never mutated, only replaced, so they are plain values.
    - An exception leaves every mutation performed before it in place, so a
      raising operation yields the state it has reached. *)

From Stdlib Require Import ZArith String.
From stdpp Require Import base tactics option list list_numbers.

Open Scope Z_scope.

(** ** Data model *)

Record Location := mkLocation { x : Z; y : Z }.

Record Car := mkCar {
  car_id : Z;
  name : string;
  location : Location;
  is_booked : bool;
  path_location_index : Z
}.

(** [Book.car_id] of the source is [book_car_id]: a projection name cannot
    be shared with [Car.car_id]. *)
Record Book := mkBook {
  source : Location;
  destination : Location;
  book_car_id : Z;
  path : list Location;
  total_time : Z
}.

Record State := mkState {
  cars : list Car;
  bookings : list Book;
  current_time : Z
}.

#[global] Instance Location_eq_dec : EqDecision Location.
Proof. solve_decision. Defined.

(** [Location.__equals__]. *)
Definition Location_equals (self other : Location) : bool :=
  bool_decide (x self = x other) && bool_decide (y self = y other).

(** Field assignments [car.f = v]. *)
Definition set_location (v : Location) (c : Car) : Car :=
  mkCar (car_id c) (name c) v (is_booked c) (path_location_index c).
Definition set_is_booked (v : bool) (c : Car) : Car :=
  mkCar (car_id c) (name c) (location c) v (path_location_index c).
Definition set_path_location_index (v : Z) (c : Car) : Car :=
  mkCar (car_id c) (name c) (location c) (is_booked c) v.

Definition set_cars (v : list Car) (s : State) : State :=
  mkState v (bookings s) (current_time s).
Definition set_bookings (v : list Book) (s : State) : State :=
  mkState (cars s) v (current_time s).
Definition set_current_time (v : Z) (s : State) : State :=
  mkState (cars s) (bookings s) v.

(** ** Python primitives *)

(** [range(lo, hi)]. *)
Definition range (lo hi : Z) : list Z := seqZ lo (hi - lo).

(** [l[i]] with Python's negative indices; [None] stands for [IndexError]. *)
Definition py_index {A} (l : list A) (i : Z) : option A :=
  let n := Z.of_nat (length l) in
  if bool_decide (0 ≤ i) then
    if bool_decide (i < n) then l !! Z.to_nat i else None
  else
    if bool_decide (0 ≤ i + n) then l !! Z.to_nat (i + n) else None.

(** ** [StateBase] *)

Definition calc_distance (source destination : Location) : Z :=
  Z.abs (x source - x destination) + Z.abs (y source - y destination).

Definition calc_total_book_time (car : Car) (pickup destination : Location) : Z :=
  calc_distance pickup (location car) + calc_distance pickup destination.

Definition calc_path (start end_ : Location) : list Location :=
  let dx := Z.abs (x end_ - x start) in
  let dy := Z.abs (y end_ - y start) in
  ((λ i, if bool_decide (y start < y end_)
         then mkLocation (x start) (y start + i)
         else mkLocation (x start) (y start - i)) <$> range 0 (dy + 1))
  ++
  ((λ i, if bool_decide (x start < x end_)
         then mkLocation (x start + i) (y end_)
         else mkLocation (x start - i) (y end_)) <$> range 1 (dx + 1)).

Definition calc_car_path (car_location pickup destination : Location)
  : list Location :=
  let path := calc_path car_location pickup in
  let path_from_pickup_to_destination := calc_path pickup destination in
  let path_from_pickup_to_destination :=
    if bool_decide (0 < length path_from_pickup_to_destination)%nat
    then drop 1 path_from_pickup_to_destination
    else path_from_pickup_to_destination in
  path ++ path_from_pickup_to_destination.

(** ** [State] *)

(** [get_car]: the first car of [cars] whose id matches, as a reference
    (its position) together with the object found there. *)
Definition get_car (s : State) (id : Z) : option (nat * Car) :=
  list_find (λ car, car_id car = id) (cars s).

(** [get_booking]: [next(...)] over the bookings with the car id, in list
    order; [None] stands for the [StopIteration] that [next] raises when the
    generator has no element. *)
Definition get_booking (s : State) (id : Z) : option Book :=
  snd <$> list_find (λ b, book_car_id b = id) (bookings s).

Definition initial_cars : list Car :=
  [ mkCar 1 "Toyota Prius" (mkLocation 0 0) false (-1);
    mkCar 2 "Honda Civic" (mkLocation 0 0) false (-1);
    mkCar 3 "Ford Mustang" (mkLocation 0 0) false (-1) ].

Definition reset (s : State) : State :=
  let s := set_cars initial_cars s in
  let s := set_bookings [] s in
  set_current_time 0 s.

(** The value of [nearest_distance]: [float("inf")] or an integer. *)
Inductive Distance := Inf | Fin (d : Z).

Definition distance_lt (d : Z) (n : Distance) : bool :=
  match n with Inf => true | Fin m => bool_decide (d < m) end.
Definition distance_eq (d : Z) (n : Distance) : bool :=
  match n with Inf => false | Fin m => bool_decide (d = m) end.

(** The loop of [find_nearest_available_car] over the cars from position
    [pos] on, with the loop variables [nearest_car] and [nearest_distance].
    The read [nearest_car.car_id] happens only where [distance] equals a
    finite [nearest_distance], at which point [nearest_car] has been set;
    the [None] arm, where the read would raise, is never taken
    ([find_nearest_never_raises] below). *)
Fixpoint find_nearest_loop (pickup : Location) (rest : list Car) (pos : nat)
    (nearest_car : option (nat * Car)) (nearest_distance : Distance)
  : option (nat * Car) :=
  match rest with
  | [] => nearest_car
  | car :: rest =>
      if is_booked car then
        find_nearest_loop pickup rest (S pos) nearest_car nearest_distance
      else
        let distance := calc_distance pickup (location car) in
        let '(nearest_car, nearest_distance) :=
          if distance_lt distance nearest_distance
          then (Some (pos, car), Fin distance)
          else (nearest_car, nearest_distance) in
        let nearest_car :=
          if distance_eq distance nearest_distance then
            match nearest_car with
            | Some (_, nearest) =>
                if bool_decide (car_id car < car_id nearest)
                then Some (pos, car) else nearest_car
            | None => nearest_car
            end
          else nearest_car in
        find_nearest_loop pickup rest (S pos) nearest_car nearest_distance
  end.

Definition find_nearest_available_car (s : State) (pickup : Location)
  : option (nat * Car) :=
  find_nearest_loop pickup (cars s) 0 None Inf.

(** The same loop with the failing read kept: the outer [None] is the
    [AttributeError] of [nearest_car.car_id] on an unset [nearest_car]. *)
Fixpoint find_nearest_loop_raising (pickup : Location) (rest : list Car)
    (pos : nat) (nearest_car : option (nat * Car)) (nearest_distance : Distance)
  : option (option (nat * Car)) :=
  match rest with
  | [] => Some nearest_car
  | car :: rest =>
      if is_booked car then
        find_nearest_loop_raising pickup rest (S pos) nearest_car nearest_distance
      else
        let distance := calc_distance pickup (location car) in
        let '(nearest_car, nearest_distance) :=
          if distance_lt distance nearest_distance
          then (Some (pos, car), Fin distance)
          else (nearest_car, nearest_distance) in
        if distance_eq distance nearest_distance then
          match nearest_car with
          | Some (_, nearest) =>
              let nearest_car :=
                if bool_decide (car_id car < car_id nearest)
                then Some (pos, car) else nearest_car in
              find_nearest_loop_raising pickup rest (S pos)
                nearest_car nearest_distance
          | None => None
          end
        else
          find_nearest_loop_raising pickup rest (S pos)
            nearest_car nearest_distance
  end.

(** [book_car] returns the state it leaves and the booking, if any. *)
Definition book_car (s : State) (pickup destination : Location)
  : State * option Book :=
  match find_nearest_available_car s pickup with
  | None => (s, None)
  | Some (k, nearest_car) =>
      let nearest_car := set_is_booked true nearest_car in
      let nearest_car := set_path_location_index 0 nearest_car in
      let book :=
        mkBook pickup destination (car_id nearest_car)
          (calc_car_path (location nearest_car) pickup destination)
          (calc_total_book_time nearest_car pickup destination) in
      let s := set_cars (<[k := nearest_car]> (cars s)) s in
      let s := set_bookings (bookings s ++ [book]) s in
      (s, Some book)
  end.

(** How a call of [increment_time] ends: it returns, or the subscript
    [book.path[...]] raises [IndexError]; both carry the state reached.
    [OutOfFuel] is the loop cut short by its fuel, which
    [increment_time_terminates] excludes. *)
Inductive Outcome :=
  | Returned (s : State)
  | IndexError (s : State)
  | OutOfFuel.

(** The [for index, book in enumerate(self.bookings)] loop. The list
    iterator is a position into the live list: it stops when the position
    is past the end of the list as it is then, and [enumerate] counts in
    step with it, so [index] is that position and [pop(index)] removes
    [book] itself. [if car:] tests for [None] only, a [Car] object being
    truthy. *)
Fixpoint increment_time_loop (fuel : nat) (index : nat) (s : State) : Outcome :=
  match bookings s !! index with
  | None => Returned s
  | Some book =>
      match fuel with
      | O => OutOfFuel
      | S fuel =>
          match get_car s (book_car_id book) with
          | None => increment_time_loop fuel (S index) s
          | Some (k, car) =>
              let car :=
                set_path_location_index (path_location_index car + 1) car in
              match py_index (path book) (path_location_index car) with
              | None => IndexError (set_cars (<[k := car]> (cars s)) s)
              | Some loc =>
                  let car := set_location loc car in
                  if bool_decide (path_location_index car
                                  = Z.of_nat (length (path book)) - 1)
                  then
                    let car := set_is_booked false car in
                    let car := set_path_location_index (-1) car in
                    let s := set_cars (<[k := car]> (cars s)) s in
                    let s := set_bookings (delete index (bookings s)) s in
                    increment_time_loop fuel (S index) s
                  else
                    let s := set_cars (<[k := car]> (cars s)) s in
                    increment_time_loop fuel (S index) s
              end
          end
      end
  end.

Definition increment_time (s : State) : Outcome :=
  let s := set_current_time (current_time s + 1) s in
  increment_time_loop (length (bookings s)) 0 s.

(** [n] consecutive calls of [increment_time], stopping at the first that
    does not return. *)
Fixpoint ticks (n : nat) (s : State) : Outcome :=
  match n with
  | O => Returned s
  | S n =>
      match increment_time s with
      | Returned s => ticks n s
      | o => o
      end
  end.

(** [n] consecutive [/tick] requests, each served on the state the one
    before has left, whether it returned or raised. The [OutOfFuel] arm is
    never taken ([increment_time_terminates]). *)
Fixpoint tick_requests (n : nat) (s : State) : State :=
  match n with
  | O => s
  | S n =>
      match increment_time s with
      | Returned s' | IndexError s' => tick_requests n s'
      | OutOfFuel => s
      end
  end.

(** The [list_cars] route: the cars whose flag equals the filter. *)
Definition list_cars (s : State) (is_booked_filter : bool) : list Car :=
  filter (λ car, is_booked car = is_booked_filter) (cars s).

(** The state of every outcome that carries one. *)
Definition outcome_state (o : Outcome) : option State :=
  match o with
  | Returned s | IndexError s => Some s
  | OutOfFuel => None
  end.

(** A freshly constructed [State()]. *)
Definition empty_state : State := mkState [] [] 0.

(** The states the running service can be in: it starts from [State()] and
    serves [reset], [book_car] and [increment_time] requests one at a time; a
    request that raises leaves the state it had reached. *)
Inductive reachable : State → Prop :=
  | reachable_empty : reachable empty_state
  | reachable_reset s : reachable s → reachable (reset s)
  | reachable_book s pickup destination :
      reachable s → reachable (book_car s pickup destination).1
  | reachable_tick s s' :
      reachable s → outcome_state (increment_time s) = Some s' → reachable s'.

(** ** Vocabulary of the specification *)

(** Two grid points one unit apart along exactly one axis. *)
Definition unit_step (a b : Location) : Prop :=
  (x a = x b ∧ Z.abs (y b - y a) = 1) ∨ (y a = y b ∧ Z.abs (x b - x a) = 1).

(** Direction of travel along an axis: +1 or -1 as the source compares. *)
Definition dir (a b : Z) : Z := if bool_decide (a < b) then 1 else -1.

(** [r] is a nearest unbooked car of [l] for [pickup], with the smallest id
    among the unbooked cars as near; or there is none and all are booked. *)
Definition nearest_of (pickup : Location) (l : list Car)
    (r : option (nat * Car)) : Prop :=
  match r with
  | None => Forall (λ c, is_booked c = true) l
  | Some (k, car) =>
      l !! k = Some car ∧ is_booked car = false ∧
      ∀ c, c ∈ l → is_booked c = false →
        calc_distance pickup (location car) ≤ calc_distance pickup (location c) ∧
        (calc_distance pickup (location c) = calc_distance pickup (location car) →
         car_id car ≤ car_id c)
  end.

(** The number of active bookings that reference a car id. *)
Definition booking_count (s : State) (id : Z) : nat :=
  length (filter (λ b, book_car_id b = id) (bookings s)).

(** The invariant of the data model: a car is booked exactly when one
    active booking references its id. *)
Definition booked_iff_one_booking (s : State) : Prop :=
  ∀ car, car ∈ cars s →
    is_booked car = true ↔ booking_count s (car_id car) = 1%nat.

(** The inductive strengthening: ids are unique among cars and among
    bookings, and a car is booked exactly when some booking references it. *)
Definition dispatch_inv (s : State) : Prop :=
  NoDup (car_id <$> cars s) ∧
  NoDup (book_car_id <$> bookings s) ∧
  ∀ car, car ∈ cars s →
    is_booked car = true ↔ car_id car ∈ (book_car_id <$> bookings s).

(** The booking [book] is the only active one, and its car, at position [k],
    stands on cell [j] of the path with its index there. *)
Definition en_route (book : Book) (k : nat) (j : nat) (s : State) : Prop :=
  bookings s = [book] ∧
  ∃ car, get_car s (book_car_id book) = Some (k, car) ∧
         path_location_index car = Z.of_nat j ∧
         path book !! j = Some (location car).

(** No booking is active and the car at position [k] has been released on
    the last cell of [book]'s path. *)
Definition arrived (book : Book) (k : nat) (s : State) : Prop :=
  bookings s = [] ∧
  ∃ car, cars s !! k = Some car ∧
         is_booked car = false ∧
         path_location_index car = -1 ∧
         Some (location car) = last (path book).

(** The identity of the fleet: the ids and names of the cars, in order. *)
Definition fleet (s : State) : list (Z * string) :=
  (λ car, (car_id car, name car)) <$> cars s.

(** A booking as [book_car] makes it for a car standing at [c]. *)
Definition booking_made (b : Book) : Prop :=
  ∃ c, path b = calc_car_path c (source b) (destination b) ∧
       total_time b
       = calc_distance (source b) c + calc_distance (source b) (destination b).

(** The car of an active booking is on its way: its index is not negative
    and, short of the last cell, points at the cell the car stands on; or
    the path is the one cell the car stands on. *)
Definition tracked (b : Book) (car : Car) : Prop :=
  0 ≤ path_location_index car ∧
  ((path_location_index car < Z.of_nat (length (path b)) - 1 ∧
    path b !! Z.to_nat (path_location_index car) = Some (location car)) ∨
   path b = [location car]).

(** What the service keeps true of its state besides [dispatch_inv]: a car
    without booking rests at index -1, and every active booking was made by
    [book_car] and has its car, booked and tracked. *)
Definition service_inv (s : State) : Prop :=
  dispatch_inv s ∧
  (∀ car, car ∈ cars s → is_booked car = false →
          path_location_index car = -1) ∧
  (∀ b, b ∈ bookings s →
        booking_made b ∧
        ∃ k car, get_car s (book_car_id b) = Some (k, car) ∧
                 is_booked car = true ∧ tracked b car).

(** The first booking of the list can only raise: its car's next index is
    past the end of its path. *)
Definition wedged (book : Book) (rest : list Book) (k : nat) (s : State)
  : Prop :=
  bookings s = book :: rest ∧
  ∃ car, get_car s (book_car_id book) = Some (k, car) ∧
         Z.of_nat (length (path book)) ≤ path_location_index car + 1.

(** The booking [book] is the first of the list, and its car, at position
    [k], stands on cell [j] of the path with its index there. *)
Definition first_en_route (book : Book) (k : nat) (j : nat) (s : State)
  : Prop :=
  head (bookings s) = Some book ∧
  ∃ car, get_car s (book_car_id book) = Some (k, car) ∧
         path_location_index car = Z.of_nat j ∧
         path book !! j = Some (location car).

(** *** Scenarios *)

(** The state after [reset] and one booking from (0,0) to (0,0). *)
Definition spot_booked : State :=
  (book_car (reset empty_state) (mkLocation 0 0) (mkLocation 0 0)).1.

(** The state after [reset], a booking from (0,0) to (1,0) (car 1, path of
    2 cells) and a booking from (0,0) to (2,0) (car 2, path of 3 cells). *)
Definition two_booked : State :=
  (book_car (book_car (reset empty_state) (mkLocation 0 0) (mkLocation 1 0)).1
     (mkLocation 0 0) (mkLocation 2 0)).1.

Definition second_booking : Book :=
  mkBook (mkLocation 0 0) (mkLocation 2 0) 2
    [mkLocation 0 0; mkLocation 1 0; mkLocation 2 0] 2.

(** ** Properties of the path helpers *)

Section calc_path_facts.
Variables start end_ : Location.

Let dx := Z.abs (x end_ - x start).
Let dy := Z.abs (y end_ - y start).

Lemma length_calc_path :
  Z.of_nat (length (calc_path start end_)) = dx + dy + 1.
Proof.
  unfold calc_path, range. rewrite length_app, !length_fmap, !length_seqZ.
  subst dx dy. lia.
Qed.

Lemma calc_path_vertical (i : nat) :
  (Z.of_nat i ≤ dy) →
  calc_path start end_ !! i
  = Some (mkLocation (x start) (y start + dir (y start) (y end_) * Z.of_nat i)).
Proof.
  intros Hi. unfold calc_path, range, dir.
  rewrite lookup_app_l by (rewrite length_fmap, length_seqZ; subst dy; lia).
  rewrite list_lookup_fmap.
  rewrite (proj2 (lookup_seqZ 0 _ i (0 + Z.of_nat i)))
    by (subst dy; split; [reflexivity | lia]).
  simpl. case_bool_decide; do 2 f_equal; lia.
Qed.

Lemma calc_path_horizontal (i : nat) :
  (dy < Z.of_nat i ≤ dx + dy) →
  calc_path start end_ !! i
  = Some (mkLocation (x start + dir (x start) (x end_) * (Z.of_nat i - dy))
                     (y end_)).
Proof.
  intros Hi. unfold calc_path, range, dir.
  rewrite lookup_app_r by (rewrite length_fmap, length_seqZ; subst dy; lia).
  rewrite length_fmap, length_seqZ, list_lookup_fmap.
  rewrite (proj2 (lookup_seqZ 1 _ _ (Z.of_nat i - dy)))
    by (subst dx dy; split; lia).
  simpl. case_bool_decide; do 2 f_equal; subst dy; lia.
Qed.

Lemma calc_path_first : calc_path start end_ !! 0%nat = Some start.
Proof.
  rewrite calc_path_vertical by (subst dy; lia).
  destruct start; simpl. do 2 f_equal. lia.
Qed.

Lemma calc_path_last : last (calc_path start end_) = Some end_.
Proof.
  rewrite last_lookup.
  pose proof length_calc_path as Hlen.
  destruct (decide (dx = 0)) as [H0 | Hpos].
  - replace (pred (length (calc_path start end_))) with (Z.to_nat dy) by lia.
    rewrite calc_path_vertical by lia.
    destruct end_ as [ex ey]; simpl in *. unfold dir.
    subst dx dy; simpl in *. case_bool_decide; do 2 f_equal; lia.
  - replace (pred (length (calc_path start end_)))
      with (Z.to_nat (dx + dy)) by lia.
    rewrite calc_path_horizontal by (subst dx dy; lia).
    destruct end_ as [ex ey]; simpl in *. unfold dir.
    subst dx dy; simpl in *. case_bool_decide; do 2 f_equal; lia.
Qed.

Lemma calc_path_unit_steps (i : nat) (a b : Location) :
  calc_path start end_ !! i = Some a →
  calc_path start end_ !! S i = Some b →
  unit_step a b.
Proof.
  intros Ha Hb.
  pose proof length_calc_path as Hlen.
  apply lookup_lt_Some in Hb as Hlt.
  destruct (decide (Z.of_nat (S i) ≤ dy)) as [Hv | Hh].
  - rewrite calc_path_vertical in Ha, Hb by lia.
    simplify_eq. left; simpl. split; [done |].
    unfold dir; case_bool_decide; lia.
  - rewrite calc_path_horizontal in Hb by lia.
    destruct (decide (Z.of_nat i = dy)) as [He | Hne].
    + rewrite calc_path_vertical in Ha by lia.
      subst dx dy. simplify_eq. right; simpl. unfold dir.
      repeat case_bool_decide; lia.
    + rewrite calc_path_horizontal in Ha by lia.
      simplify_eq. right; simpl. split; [done |].
      unfold dir; case_bool_decide; lia.
Qed.

End calc_path_facts.

Lemma calc_path_same (a : Location) : calc_path a a = [a].
Proof.
  unfold calc_path, range. rewrite !Z.sub_diag. cbn.
  rewrite !bool_decide_false by lia.
  destruct a as [ax ay]; simpl. do 2 f_equal; lia.
Qed.

(** C5. [calc_path start end_] has [|dx| + |dy| + 1] points, begins with
    [start] and ends with [end_]; consecutive points are one unit apart along
    exactly one axis; the first [|dy| + 1] points stay at [start.x] while y
    moves toward [end_.y], the remaining [|dx|] points stay at [end_.y] while
    x moves toward [end_.x]; and the path from a point to itself is that
    single point. *)
Theorem calc_path_spec (start end_ : Location) :
  Z.of_nat (length (calc_path start end_))
  = Z.abs (x end_ - x start) + Z.abs (y end_ - y start) + 1 ∧
  head (calc_path start end_) = Some start ∧
  last (calc_path start end_) = Some end_ ∧
  (∀ (i : nat) a b,
     calc_path start end_ !! i = Some a →
     calc_path start end_ !! S i = Some b → unit_step a b) ∧
  (∀ i : nat,
     Z.of_nat i ≤ Z.abs (y end_ - y start) →
     calc_path start end_ !! i
     = Some (mkLocation (x start)
               (y start + dir (y start) (y end_) * Z.of_nat i))) ∧
  (∀ i : nat,
     Z.abs (y end_ - y start) < Z.of_nat i
       ≤ Z.abs (x end_ - x start) + Z.abs (y end_ - y start) →
     calc_path start end_ !! i
     = Some (mkLocation
               (x start + dir (x start) (x end_)
                          * (Z.of_nat i - Z.abs (y end_ - y start)))
               (y end_))) ∧
  (start = end_ → calc_path start end_ = [start]).
Proof.
  split_and!.
  - apply length_calc_path.
  - rewrite head_lookup. apply calc_path_first.
  - apply calc_path_last.
  - apply calc_path_unit_steps.
  - apply calc_path_vertical.
  - apply calc_path_horizontal.
  - intros <-. apply calc_path_same.
Qed.

(** ** [reset] *)

(** C9. Whatever the state before, [reset] leaves exactly the three cars
    with ids 1, 2, 3, each unbooked, with path-progress index -1 and at
    (0,0), no active booking, and the clock at 0. *)
Theorem reset_spec (s : State) :
  car_id <$> cars (reset s) = [1; 2; 3] ∧
  Forall (λ car, is_booked car = false ∧
                 path_location_index car = -1 ∧
                 location car = mkLocation 0 0) (cars (reset s)) ∧
  bookings (reset s) = [] ∧
  current_time (reset s) = 0.
Proof.
  split_and!; try reflexivity.
  simpl. repeat (apply Forall_cons; split; [done |]). apply Forall_nil_2.
Qed.

Lemma reset_idempotent (s : State) : reset (reset s) = reset s.
Proof. reflexivity. Qed.

(** ** Nearest-car selection *)

Lemma find_nearest_loop_spec pickup rest :
  ∀ done nearest_car nearest_distance,
    nearest_of pickup done nearest_car →
    nearest_distance
    = match nearest_car with
      | None => Inf
      | Some (_, c) => Fin (calc_distance pickup (location c))
      end →
    nearest_of pickup (done ++ rest)
      (find_nearest_loop pickup rest (length done) nearest_car nearest_distance).
Proof.
  induction rest as [| car rest IH]; intros done nc nd Hnc Hnd.
  { simpl. by rewrite app_nil_r. }
  rewrite cons_middle, app_assoc. simpl.
  replace (S (length done)) with (length (done ++ [car]))
    by (rewrite length_app; simpl; lia).
  destruct (is_booked car) eqn:Hb.
  - (* a booked car is passed over *)
    apply IH; [| done].
    destruct nc as [[k c] |]; simpl in *.
    + destruct Hnc as (Hk & Hc & Hmin). split_and!; [| done |].
      * by apply lookup_app_l_Some.
      * intros c' [Hin | Hin%list_elem_of_singleton]%elem_of_app Hfree;
          [by apply Hmin | congruence].
    + apply Forall_app; split; [done |]. by apply Forall_singleton.
  - assert (Hhere : (done ++ [car]) !! length done = Some car)
      by (by rewrite lookup_app_r, Nat.sub_diag by lia).
    destruct nc as [[k c] |]; simpl in Hnc; subst nd; simpl.
    + destruct Hnc as (Hk & Hc & Hmin).
      assert (Hk' : (done ++ [car]) !! k = Some c) by (by apply lookup_app_l_Some).
      case_bool_decide as Hlt; simpl.
      * (* strictly nearer: the car replaces the candidate *)
        rewrite bool_decide_true by done.
        rewrite bool_decide_false by lia.
        apply IH; [| done]. simpl. split_and!; [done | done |].
        intros c' [Hin | ->%list_elem_of_singleton]%elem_of_app Hfree; [| lia].
        destruct (Hmin c' Hin Hfree). lia.
      * case_bool_decide as Heq; [case_bool_decide as Hid |];
          (apply IH; [| by rewrite ?Heq]); simpl.
        -- (* as near, smaller id: the car replaces the candidate *)
           split_and!; [done | done |].
           intros c' [Hin | ->%list_elem_of_singleton]%elem_of_app Hfree; [| lia].
           destruct (Hmin c' Hin Hfree). lia.
        -- split_and!; [done | done |].
           intros c' [Hin | ->%list_elem_of_singleton]%elem_of_app Hfree;
             [by apply Hmin | lia].
        -- split_and!; [done | done |].
           intros c' [Hin | ->%list_elem_of_singleton]%elem_of_app Hfree;
             [by apply Hmin | lia].
    + (* first unbooked car met *)
      rewrite bool_decide_true by done.
      rewrite bool_decide_false by lia.
      apply IH; [| done]. simpl. split_and!; [done | done |].
      intros c' [Hin | ->%list_elem_of_singleton]%elem_of_app Hfree; [| lia].
      rewrite Forall_forall in Hnc. specialize (Hnc c' Hin). congruence.
Qed.

Lemma find_nearest_available_car_spec s pickup :
  nearest_of pickup (cars s) (find_nearest_available_car s pickup).
Proof.
  unfold find_nearest_available_car.
  apply (find_nearest_loop_spec pickup (cars s) [] None Inf); [| done].
  simpl. apply Forall_nil_2.
Qed.

(** The read [nearest_car.car_id] never raises: [nearest_distance] is
    finite only once [nearest_car] is set, so the total loop is the loop. *)
Lemma find_nearest_loop_never_raises pickup rest :
  ∀ pos nearest_car nearest_distance,
    (nearest_distance = Inf ↔ nearest_car = None) →
    find_nearest_loop_raising pickup rest pos nearest_car nearest_distance
    = Some (find_nearest_loop pickup rest pos nearest_car nearest_distance).
Proof.
  induction rest as [| car rest IH]; intros pos nc nd Hset; [done |].
  simpl. destruct (is_booked car); [by apply IH |].
  destruct (distance_lt _ nd) eqn:Hlt.
  - simpl. rewrite bool_decide_true by done. apply IH.
    split; [discriminate | by case_bool_decide].
  - destruct nd as [| m]; [done |].
    destruct nc as [[k c] |]; [| by destruct Hset as [_ Hset]; specialize (Hset eq_refl)].
    simpl. case_bool_decide; [case_bool_decide |]; apply IH; split; discriminate.
Qed.

Lemma find_nearest_never_raises s pickup :
  find_nearest_loop_raising pickup (cars s) 0 None Inf
  = Some (find_nearest_available_car s pickup).
Proof. by apply find_nearest_loop_never_raises. Qed.

(** ** [book_car] *)

(** C2. [book_car] either finds every car booked (in particular when there
    is no car), returns no booking and leaves the state as it was; or it
    books an unbooked car whose Manhattan distance to the pickup,
    [|pickup.x - car.x| + |pickup.y - car.y|], is minimal among the unbooked
    cars, and whose id is the smallest among the unbooked cars at that
    distance. *)
Theorem book_car_selects_nearest (s : State) (pickup destination : Location) :
  (Forall (λ c, is_booked c = true) (cars s) ∧
   book_car s pickup destination = (s, None))
  ∨
  (∃ k car s' book,
     cars s !! k = Some car ∧
     is_booked car = false ∧
     (∀ c, c ∈ cars s → is_booked c = false →
        Z.abs (x pickup - x (location car)) + Z.abs (y pickup - y (location car))
        ≤ Z.abs (x pickup - x (location c)) + Z.abs (y pickup - y (location c)) ∧
        (Z.abs (x pickup - x (location c)) + Z.abs (y pickup - y (location c))
         = Z.abs (x pickup - x (location car))
           + Z.abs (y pickup - y (location car)) →
         car_id car ≤ car_id c)) ∧
     book_car s pickup destination = (s', Some book) ∧
     book_car_id book = car_id car ∧
     cars s'
     = <[k := set_path_location_index 0 (set_is_booked true car)]> (cars s)).
Proof.
  pose proof (find_nearest_available_car_spec s pickup) as Hn.
  unfold book_car.
  destruct (find_nearest_available_car s pickup) as [[k car] |]; simpl in Hn.
  - right. destruct Hn as (Hk & Hfree & Hmin).
    unfold calc_distance in Hmin.
    eexists k, car, _, _. split_and!; [done | done | done | reflexivity | done | done].
  - left. done.
Qed.

(** The [None] outcome leaves the state as it was. *)
Lemma book_car_None_unchanged (s s' : State) (pickup dest : Location) :
  book_car s pickup dest = (s', None) → s' = s.
Proof.
  unfold book_car.
  destruct (find_nearest_available_car s pickup) as [[k car] |]; [done |].
  by intros [= <-].
Qed.

(** [list_cars] reads the state: it lists, in the order of [cars], the cars
    whose flag equals the filter. *)
Lemma list_cars_spec (s : State) (flag : bool) (car : Car) :
  car ∈ list_cars s flag ↔ car ∈ cars s ∧ is_booked car = flag.
Proof. unfold list_cars. rewrite list_elem_of_filter. tauto. Qed.

(** C6. The booking returned by a successful [book_car] has [total_time]
    equal to the distance from the pickup to the chosen car's location plus
    the distance from the pickup to the destination, the car's location
    being the one it had before the call, which the call does not change. *)
Theorem book_car_total_time (s s' : State) (pickup destination : Location)
    (book : Book) :
  book_car s pickup destination = (s', Some book) →
  ∃ k car car',
    find_nearest_available_car s pickup = Some (k, car) ∧
    cars s !! k = Some car ∧
    car_id car = book_car_id book ∧
    total_time book
    = calc_distance pickup (location car) + calc_distance pickup destination ∧
    cars s' !! k = Some car' ∧
    location car' = location car ∧
    location <$> cars s' = location <$> cars s.
Proof.
  pose proof (find_nearest_available_car_spec s pickup) as Hn.
  unfold book_car.
  destruct (find_nearest_available_car s pickup) as [[k car] |];
    simpl in Hn; [| done].
  destruct Hn as (Hk & _). intros [= <- <-].
  exists k, car, (set_path_location_index 0 (set_is_booked true car)).
  simpl. split_and!; try done.
  - apply list_lookup_insert_eq. by eapply lookup_lt_Some.
  - rewrite list_fmap_insert. simpl. apply list_insert_id.
    by rewrite list_lookup_fmap, Hk.
Qed.

Lemma book_car_total_time_witness :
  ∃ k car car',
    find_nearest_available_car (reset empty_state) (mkLocation 0 0)
    = Some (k, car) ∧
    cars (reset empty_state) !! k = Some car ∧
    car_id car = 1 ∧
    2 = calc_distance (mkLocation 0 0) (location car)
        + calc_distance (mkLocation 0 0) (mkLocation 2 0) ∧
    cars (book_car (reset empty_state) (mkLocation 0 0) (mkLocation 2 0)).1 !! k
    = Some car' ∧
    location car' = location car ∧
    location <$> cars (book_car (reset empty_state) (mkLocation 0 0)
                         (mkLocation 2 0)).1
    = location <$> cars (reset empty_state).
Proof.
  exact (book_car_total_time (reset empty_state) _ (mkLocation 0 0)
           (mkLocation 2 0) _ eq_refl).
Defined.

(** ** [increment_time]: the loop, termination and the clock *)

(** The equations of one iteration of the loop. *)
Section loop_equations.
Variables (fuel index : nat) (s : State).

Lemma increment_time_loop_exhausted :
  bookings s !! index = None →
  increment_time_loop fuel index s = Returned s.
Proof. intros Hb. destruct fuel; simpl; by rewrite Hb. Qed.

Variables (book : Book) (k : nat) (car : Car).
Hypothesis Hbook : bookings s !! index = Some book.
Hypothesis Hcar : get_car s (book_car_id book) = Some (k, car).

Lemma increment_time_loop_raise :
  py_index (path book) (path_location_index car + 1) = None →
  increment_time_loop (S fuel) index s
  = IndexError
      (set_cars
         (<[k := set_path_location_index (path_location_index car + 1) car]>
            (cars s)) s).
Proof. intros Hpy. simpl. rewrite Hbook, Hcar. simpl. by rewrite Hpy. Qed.

Lemma increment_time_loop_move (loc : Location) :
  py_index (path book) (path_location_index car + 1) = Some loc →
  path_location_index car + 1 ≠ Z.of_nat (length (path book)) - 1 →
  increment_time_loop (S fuel) index s
  = increment_time_loop fuel (S index)
      (set_cars
         (<[k := set_location loc
                   (set_path_location_index (path_location_index car + 1) car)]>
            (cars s)) s).
Proof.
  intros Hpy Hne. simpl. rewrite Hbook, Hcar. simpl. rewrite Hpy.
  simpl. by rewrite bool_decide_false.
Qed.

Lemma increment_time_loop_arrive (loc : Location) :
  py_index (path book) (path_location_index car + 1) = Some loc →
  path_location_index car + 1 = Z.of_nat (length (path book)) - 1 →
  increment_time_loop (S fuel) index s
  = increment_time_loop fuel (S index)
      (set_bookings (delete index (bookings s))
         (set_cars
            (<[k := set_path_location_index (-1)
                      (set_is_booked false
                         (set_location loc
                            (set_path_location_index
                               (path_location_index car + 1) car)))]>
               (cars s)) s)).
Proof.
  intros Hpy Heq. simpl. rewrite Hbook, Hcar. simpl. rewrite Hpy.
  simpl. by rewrite bool_decide_true.
Qed.

End loop_equations.

Lemma increment_time_loop_terminates fuel :
  ∀ index s,
    (length (bookings s) ≤ fuel + index)%nat →
    increment_time_loop fuel index s ≠ OutOfFuel.
Proof.
  induction fuel as [| fuel IH]; intros index s Hlen.
  - simpl. rewrite lookup_ge_None_2 by lia. done.
  - simpl. destruct (bookings s !! index) as [book |]; [| done].
    destruct (get_car s (book_car_id book)) as [[k car] |];
      [| apply IH; lia].
    simpl. destruct (py_index _ _); [| done].
    case_bool_decide; apply IH; simpl; [| lia].
    pose proof (sublist_length _ _ (sublist_delete (bookings s) index)). lia.
Qed.

(** [increment_time] is total: it returns or raises [IndexError]. *)
Lemma increment_time_terminates (s : State) : increment_time s ≠ OutOfFuel.
Proof.
  unfold increment_time. apply increment_time_loop_terminates. simpl. lia.
Qed.

Lemma increment_time_loop_clock fuel :
  ∀ index s s',
    outcome_state (increment_time_loop fuel index s) = Some s' →
    current_time s' = current_time s.
Proof.
  induction fuel as [| fuel IH]; intros index s s'; simpl.
  - destruct (bookings s !! index); [done | by intros [= <-]].
  - destruct (bookings s !! index) as [book |]; [| by intros [= <-]].
    destruct (get_car s (book_car_id book)) as [[k car] |]; [| by apply IH].
    simpl. destruct (py_index _ _); [| by intros [= <-]].
    case_bool_decide; intros ->%IH; done.
Qed.

(** Every call of [increment_time] ends, and leaves the clock exactly one
    later, also when it ends by raising. *)
Lemma increment_time_clock (s : State) :
  ∃ s', outcome_state (increment_time s) = Some s' ∧
        current_time s' = current_time s + 1.
Proof.
  pose proof (increment_time_terminates s) as Hterm.
  destruct (increment_time s) as [s' | s' |] eqn:Hrun; [| | done];
    exists s'; (split; [done |]);
    unfold increment_time in Hrun;
    apply (f_equal outcome_state) in Hrun;
    by apply increment_time_loop_clock in Hrun.
Qed.

(** ** The booking invariant *)

Lemma get_car_Some s id k car :
  get_car s id = Some (k, car) →
  cars s !! k = Some car ∧ car_id car = id ∧
  ∀ j c, cars s !! j = Some c → (j < k)%nat → car_id c ≠ id.
Proof. unfold get_car. by intros ?%list_find_Some. Qed.

Lemma elem_of_delete_NoDup {A} (l : list A) (i : nat) (a b : A) :
  NoDup l → l !! i = Some a → b ∈ delete i l ↔ b ∈ l ∧ b ≠ a.
Proof.
  intros Hnd Hi.
  pose proof (take_drop_middle l i a Hi) as Hl.
  assert (Hmem : b ∈ l ↔ b ∈ take i l ∨ b = a ∨ b ∈ drop (S i) l).
  { rewrite <- Hl at 1. rewrite elem_of_app, elem_of_cons. tauto. }
  rewrite <- Hl in Hnd.
  apply NoDup_app in Hnd as (_ & Hdisj & [Hfresh _]%NoDup_cons).
  rewrite delete_take_drop, elem_of_app, Hmem.
  split.
  - intros [Hin | Hin]; (split; [tauto |]); intros ->; [| done].
    apply (Hdisj a Hin). by left.
  - tauto.
Qed.

Lemma booking_count_NoDup (l : list Book) (id : Z) :
  NoDup (book_car_id <$> l) →
  (id ∈ (book_car_id <$> l) ∧
     length (filter (λ b, book_car_id b = id) l) = 1%nat) ∨
  ((id ∉ book_car_id <$> l) ∧
     length (filter (λ b, book_car_id b = id) l) = 0%nat).
Proof.
  induction l as [| b l IH]; intros Hnd.
  - right. split; [apply not_elem_of_nil | done].
  - rewrite fmap_cons in Hnd. apply NoDup_cons in Hnd as [Hfresh Hnd].
    rewrite fmap_cons, filter_cons.
    destruct (IH Hnd) as [[Hin Hlen] | [Hout Hlen]];
      destruct (decide (book_car_id b = id)) as [Heq | Hne]; simpl.
    + subst id. done.
    + left. split; [by right | done].
    + left. split; [subst id; by left | by rewrite Hlen].
    + right. split; [| done]. by intros [-> | ?]%elem_of_cons.
Qed.

Lemma dispatch_inv_booked_iff (s : State) :
  dispatch_inv s → booked_iff_one_booking s.
Proof.
  intros (_ & Hnd & Hiff) car Hcar. rewrite (Hiff car Hcar).
  unfold booking_count.
  destruct (booking_count_NoDup (bookings s) (car_id car) Hnd)
    as [[Hin ->] | [Hout ->]]; [tauto |].
  split; [tauto | discriminate].
Qed.

Lemma car_position_unique s k j car c :
  NoDup (car_id <$> cars s) →
  cars s !! k = Some car →
  cars s !! j = Some c →
  car_id c = car_id car →
  k = j.
Proof.
  intros Hc Hk Hj Heq.
  apply (NoDup_lookup _ _ _ (car_id car) Hc); rewrite list_lookup_fmap.
  - by rewrite Hk.
  - rewrite Hj. simpl. by rewrite Heq.
Qed.

(** A store to a car that keeps its id and booked flag. *)
Lemma dispatch_inv_move s k car car' :
  dispatch_inv s →
  cars s !! k = Some car →
  car_id car' = car_id car →
  is_booked car' = is_booked car →
  dispatch_inv (set_cars (<[k := car']> (cars s)) s).
Proof.
  intros (Hc & Hb & Hiff) Hk Hid Hflag. split_and!; simpl; [| done |].
  - rewrite list_fmap_insert, list_insert_id; [done |].
    rewrite list_lookup_fmap, Hk. simpl. by rewrite Hid.
  - intros c [j Hj]%list_elem_of_lookup.
    apply list_lookup_insert_Some in Hj as [(-> & <- & _) | (_ & Hj)].
    + rewrite Hflag, Hid. apply Hiff. by eapply list_elem_of_lookup_2.
    + apply Hiff. by eapply list_elem_of_lookup_2.
Qed.

(** Arrival: the car is released and its booking removed. *)
Lemma dispatch_inv_complete s k car car' index book :
  dispatch_inv s →
  cars s !! k = Some car →
  bookings s !! index = Some book →
  book_car_id book = car_id car →
  car_id car' = car_id car →
  is_booked car' = false →
  dispatch_inv
    (set_bookings (delete index (bookings s))
       (set_cars (<[k := car']> (cars s)) s)).
Proof.
  intros (Hc & Hb & Hiff) Hk Hi Hbook Hid Hflag.
  assert (Hids : (book_car_id <$> bookings s) !! index = Some (car_id car))
    by (by rewrite list_lookup_fmap, Hi; simpl; rewrite Hbook).
  split_and!; simpl.
  - rewrite list_fmap_insert, list_insert_id; [done |].
    rewrite list_lookup_fmap, Hk. simpl. by rewrite Hid.
  - rewrite list_fmap_delete. eapply sublist_NoDup; [done | apply sublist_delete].
  - intros c [j Hj]%list_elem_of_lookup.
    rewrite list_fmap_delete, (elem_of_delete_NoDup _ _ _ _ Hb Hids).
    apply list_lookup_insert_Some in Hj as [(-> & <- & _) | (Hne & Hj)].
    + rewrite Hflag, Hid. split; [discriminate | tauto].
    + rewrite (Hiff c) by (by eapply list_elem_of_lookup_2).
      assert (car_id c ≠ car_id car); [| tauto].
      intros Heq. apply Hne. by eapply car_position_unique.
Qed.

(** Dispatch: an unbooked car is booked and its booking appended. *)
Lemma dispatch_inv_book s k car car' book :
  dispatch_inv s →
  cars s !! k = Some car →
  is_booked car = false →
  car_id car' = car_id car →
  is_booked car' = true →
  book_car_id book = car_id car →
  dispatch_inv
    (set_bookings (bookings s ++ [book])
       (set_cars (<[k := car']> (cars s)) s)).
Proof.
  intros (Hc & Hb & Hiff) Hk Hfree Hid Hflag Hbook.
  assert (Hnew : car_id car ∉ book_car_id <$> bookings s).
  { rewrite <- (Hiff car) by (by eapply list_elem_of_lookup_2). congruence. }
  split_and!; simpl.
  - rewrite list_fmap_insert, list_insert_id; [done |].
    rewrite list_lookup_fmap, Hk. simpl. by rewrite Hid.
  - rewrite fmap_app. simpl. apply NoDup_app. split_and!; [done | |].
    + intros id Hin ->%list_elem_of_singleton. rewrite Hbook in Hin. done.
    + apply NoDup_singleton.
  - intros c [j Hj]%list_elem_of_lookup.
    rewrite fmap_app, elem_of_app. simpl. rewrite list_elem_of_singleton, Hbook.
    apply list_lookup_insert_Some in Hj as [(-> & <- & _) | (Hne & Hj)].
    + rewrite Hflag, Hid. tauto.
    + rewrite (Hiff c) by (by eapply list_elem_of_lookup_2).
      assert (car_id c ≠ car_id car); [| tauto].
      intros Heq. apply Hne. by eapply car_position_unique.
Qed.

Lemma increment_time_loop_inv fuel :
  ∀ index s s',
    dispatch_inv s →
    outcome_state (increment_time_loop fuel index s) = Some s' →
    dispatch_inv s'.
Proof.
  induction fuel as [| fuel IH]; intros index s s' Hinv; simpl.
  - destruct (bookings s !! index); [done | by intros [= <-]].
  - destruct (bookings s !! index) as [book |] eqn:Hbook; [| by intros [= <-]].
    destruct (get_car s (book_car_id book)) as [[k car] |] eqn:Hcar;
      [| by apply IH].
    apply get_car_Some in Hcar as (Hk & Hid & _).
    simpl. destruct (py_index _ _) as [loc |].
    + case_bool_decide; apply IH.
      * by eapply dispatch_inv_complete.
      * by eapply dispatch_inv_move.
    + intros [= <-]. by eapply dispatch_inv_move.
Qed.

Lemma increment_time_inv (s s' : State) :
  dispatch_inv s →
  outcome_state (increment_time s) = Some s' →
  dispatch_inv s'.
Proof.
  intros Hinv. unfold increment_time.
  apply increment_time_loop_inv. exact Hinv.
Qed.

Lemma book_car_inv (s : State) (pickup destination : Location) :
  dispatch_inv s → dispatch_inv (book_car s pickup destination).1.
Proof.
  intros Hinv. unfold book_car.
  pose proof (find_nearest_available_car_spec s pickup) as Hn.
  destruct (find_nearest_available_car s pickup) as [[k car] |];
    simpl in *; [| done].
  destruct Hn as (Hk & Hfree & _). by eapply dispatch_inv_book.
Qed.

Lemma reset_inv (s : State) : dispatch_inv (reset s).
Proof.
  split_and!; simpl.
  - compute_done.
  - apply NoDup_nil_2.
  - intros car Hcar. split; [| by intros ?%elem_of_nil].
    repeat (apply elem_of_cons in Hcar as [-> | Hcar]); try done.
    by apply elem_of_nil in Hcar.
Qed.

Lemma reachable_inv (s : State) : reachable s → dispatch_inv s.
Proof.
  induction 1 as [| s _ _ | s pickup destination _ IH | s s' _ IH Hrun].
  - split_and!; simpl; [apply NoDup_nil_2 .. |]. by intros car ?%elem_of_nil.
  - apply reset_inv.
  - by apply book_car_inv.
  - by eapply increment_time_inv.
Qed.

(** C8. A car is booked exactly when one active booking references its id:
    this holds after [reset] from any state, in every state the service can
    reach, and hence after every [book_car] and every returning
    [increment_time] issued there. *)
Theorem booked_iff_one_booking_invariant (s : State) :
  reachable s →
  booked_iff_one_booking (reset s) ∧
  booked_iff_one_booking s ∧
  (∀ pickup destination,
     booked_iff_one_booking (book_car s pickup destination).1) ∧
  (∀ s', increment_time s = Returned s' → booked_iff_one_booking s').
Proof.
  intros Hs%reachable_inv. split_and!.
  - apply dispatch_inv_booked_iff, reset_inv.
  - by apply dispatch_inv_booked_iff.
  - intros pickup destination. by apply dispatch_inv_booked_iff, book_car_inv.
  - intros s' Hrun. apply dispatch_inv_booked_iff.
    apply (increment_time_inv s); [done | by rewrite Hrun].
Qed.

Lemma booked_iff_one_booking_invariant_witness :
  reachable (book_car (reset empty_state) (mkLocation 0 0) (mkLocation 2 0)).1 ∧
  booked_iff_one_booking
    (book_car (reset empty_state) (mkLocation 0 0) (mkLocation 2 0)).1.
Proof.
  assert (Hs : reachable
                 (book_car (reset empty_state) (mkLocation 0 0)
                    (mkLocation 2 0)).1)
    by apply reachable_book, reachable_reset, reachable_empty.
  split; [exact Hs |].
  exact (proj1 (proj2 (booked_iff_one_booking_invariant _ Hs))).
Defined.

(** The invariant also survives a call that raises. *)
Lemma booked_iff_one_booking_after_raise (s s' : State) :
  reachable s → increment_time s = IndexError s' → booked_iff_one_booking s'.
Proof.
  intros Hs%reachable_inv Hrun. apply dispatch_inv_booked_iff.
  apply (increment_time_inv s); [done | by rewrite Hrun].
Qed.

(** ** A trip of no length *)

Lemma calc_car_path_same (a : Location) : calc_car_path a a a = [a].
Proof. unfold calc_car_path. rewrite calc_path_same. reflexivity. Qed.

(** Booking a car that already stands on a pickup that is also the
    destination yields the one-cell path, with the car's index at 0. *)
Lemma book_car_on_the_spot (s : State) (pickup : Location) k car :
  find_nearest_available_car s pickup = Some (k, car) →
  location car = pickup →
  ∃ s' book car',
    book_car s pickup pickup = (s', Some book) ∧
    book_car_id book = car_id car ∧
    path book = [pickup] ∧
    cars s' !! k = Some car' ∧
    path_location_index car' = 0 ∧
    py_index (path book) (path_location_index car' + 1) = None.
Proof.
  intros Hfind Hloc.
  pose proof (find_nearest_available_car_spec s pickup) as Hn.
  unfold book_car. rewrite Hfind in *. destruct Hn as (Hk & _).
  eexists _, _, (set_path_location_index 0 (set_is_booked true car)).
  split_and!; [reflexivity | done | | | done | ]; simpl.
  - rewrite Hloc. apply calc_car_path_same.
  - apply list_lookup_insert_eq. by eapply lookup_lt_Some.
  - rewrite Hloc, calc_car_path_same. reflexivity.
Qed.

(** C10. The path lookup of [increment_time] can be out of bounds in a
    state the service reaches: whenever [book_car] picks a car standing on a
    pickup equal to the destination, the booking's path is the one cell
    [[pickup]] and the car's index is 0, so index 1 has no element; and from
    the state after [reset] such a booking makes the next [increment_time]
    raise [IndexError] at that read. *)
Theorem single_cell_path_index_error :
  (∀ (s : State) (pickup : Location) k car,
     find_nearest_available_car s pickup = Some (k, car) →
     location car = pickup →
     ∃ s' book car',
       book_car s pickup pickup = (s', Some book) ∧
       path book = [pickup] ∧
       cars s' !! k = Some car' ∧
       path_location_index car' = 0 ∧
       py_index (path book) (path_location_index car' + 1) = None) ∧
  (∃ (s : State) (pickup : Location) s' book s'',
     reachable s ∧
     book_car s pickup pickup = (s', Some book) ∧
     path book = [pickup] ∧
     reachable s' ∧
     increment_time s' = IndexError s'').
Proof.
  split.
  - intros s pickup k car Hfind Hloc.
    destruct (book_car_on_the_spot s pickup k car Hfind Hloc)
      as (s' & book & car' & ? & ? & ? & ? & ? & ?).
    by exists s', book, car'.
  - exists (reset empty_state), (mkLocation 0 0).
    eexists _, _, _. split_and!.
    + apply reachable_reset, reachable_empty.
    + reflexivity.
    + reflexivity.
    + apply (reachable_book (reset empty_state) (mkLocation 0 0) (mkLocation 0 0)).
      apply reachable_reset, reachable_empty.
    + vm_compute. reflexivity.
Qed.

(** ** A booking alone on the road *)

Lemma get_car_insert s k car car' id :
  get_car s id = Some (k, car) →
  car_id car' = id →
  get_car (set_cars (<[k := car']> (cars s)) s) id = Some (k, car').
Proof.
  unfold get_car. simpl. intros (Hk & Hid & Hfirst)%list_find_Some Hid'.
  apply list_find_Some. split_and!; [| done |].
  - apply list_lookup_insert_eq. by eapply lookup_lt_Some.
  - intros j c Hj Hlt. rewrite list_lookup_insert_ne in Hj by lia. eauto.
Qed.

Lemma py_index_nat {A} (l : list A) (i : nat) :
  py_index l (Z.of_nat i) = l !! i.
Proof.
  unfold py_index. rewrite bool_decide_true by lia. rewrite Nat2Z.id.
  case_bool_decide; [done |]. symmetry. apply lookup_ge_None. lia.
Qed.

Lemma ticks_add (m n : nat) :
  ∀ s s', ticks m s = Returned s' → ticks (m + n) s = ticks n s'.
Proof.
  induction m as [| m IH]; intros s s'; simpl; [by intros [= ->] |].
  destruct (increment_time s); [apply IH | done ..].
Qed.

Section sole_booking.
Variables (book : Book) (k : nat).

Lemma tick_en_route (j : nat) (s : State) :
  en_route book k j s →
  (S (S j) < length (path book))%nat →
  ∃ s', increment_time s = Returned s' ∧ en_route book k (S j) s'.
Proof.
  intros (Hb & car & Hcar & Hidx & Hloc) Hlt.
  destruct (lookup_lt_is_Some_2 (path book) (S j)) as [loc Hnext]; [lia |].
  assert (Hpy : py_index (path book) (path_location_index car + 1) = Some loc).
  { rewrite Hidx. replace (Z.of_nat j + 1) with (Z.of_nat (S j)) by lia.
    by rewrite py_index_nat. }
  unfold increment_time. simpl. rewrite Hb. simpl length.
  rewrite (increment_time_loop_move _ _ _ book k car) with (loc := loc);
    [| by simpl; rewrite Hb | exact Hcar | exact Hpy | lia].
  rewrite increment_time_loop_exhausted by (by simpl; rewrite Hb).
  eexists. split; [reflexivity |]. split; [exact Hb |].
  eexists. split_and!.
  - apply (get_car_insert (set_current_time (current_time s + 1) s) k car);
      [exact Hcar |].
    by apply get_car_Some in Hcar as (_ & ? & _).
  - simpl. lia.
  - done.
Qed.

Lemma tick_arrive (j : nat) (s : State) :
  en_route book k j s →
  S (S j) = length (path book) →
  ∃ s', increment_time s = Returned s' ∧ arrived book k s'.
Proof.
  intros (Hb & car & Hcar & Hidx & Hloc) Hlen.
  destruct (lookup_lt_is_Some_2 (path book) (S j)) as [loc Hnext]; [lia |].
  assert (Hpy : py_index (path book) (path_location_index car + 1) = Some loc).
  { rewrite Hidx. replace (Z.of_nat j + 1) with (Z.of_nat (S j)) by lia.
    by rewrite py_index_nat. }
  unfold increment_time. simpl. rewrite Hb. simpl length.
  rewrite (increment_time_loop_arrive _ _ _ book k car) with (loc := loc);
    [| by simpl; rewrite Hb | exact Hcar | exact Hpy | lia].
  rewrite increment_time_loop_exhausted by (by simpl; rewrite Hb).
  eexists. split; [reflexivity |]. split; [by simpl; rewrite Hb |].
  eexists. simpl. split_and!.
  - apply list_lookup_insert_eq.
    apply get_car_Some in Hcar as (Hk & _). by eapply lookup_lt_Some.
  - reflexivity.
  - reflexivity.
  - rewrite last_lookup, <- Hlen. simpl. by rewrite Hnext.
Qed.

Lemma ticks_en_route (m : nat) :
  ∀ (j : nat) (s : State),
    en_route book k j s →
    (S (j + m) < length (path book))%nat →
    ∃ s', ticks m s = Returned s' ∧ en_route book k (j + m) s'.
Proof.
  induction m as [| m IH]; intros j s Hroute Hlt.
  - exists s. by rewrite Nat.add_0_r.
  - destruct (tick_en_route j s Hroute) as (s1 & Hrun & Hroute1); [lia |].
    destruct (IH (S j) s1 Hroute1) as (s' & Hticks & Hroute'); [lia |].
    exists s'. cbn [ticks]. rewrite Hrun.
    split; [done |]. by replace (j + S m)%nat with (S j + m)%nat by lia.
Qed.

(** With [n + 1] path cells and [n ≥ 1], a booking that is alone in the
    list, its car at index 0, is still active after [n - 1] calls, the car
    at [path[n-1]]; the [n]-th call brings the car to the last cell,
    releases it and removes the booking. *)
Lemma sole_booking_arrives (n : nat) (s : State) :
  en_route book k 0 s →
  length (path book) = S (S n) →
  (∃ s', ticks n s = Returned s' ∧ en_route book k n s') ∧
  (∃ s', ticks (S n) s = Returned s' ∧ arrived book k s').
Proof.
  intros Hroute Hlen.
  destruct (ticks_en_route n 0 s Hroute) as (s1 & Hticks & Hroute1); [lia |].
  simpl in Hroute1. split; [by exists s1 |].
  destruct (tick_arrive n s1 Hroute1) as (s2 & Hrun & Harr); [lia |].
  exists s2. split; [| done].
  replace (S n) with (n + 1)%nat by lia.
  rewrite (ticks_add n 1 s s1 Hticks). cbn [ticks]. by rewrite Hrun.
Qed.

End sole_booking.

(** The path of a booking runs from the car to the destination. *)
Lemma calc_car_path_first (car_location pickup destination : Location) :
  calc_car_path car_location pickup destination !! 0%nat = Some car_location.
Proof.
  unfold calc_car_path. apply lookup_app_l_Some, calc_path_first.
Qed.

Lemma calc_car_path_last (car_location pickup destination : Location) :
  last (calc_car_path car_location pickup destination) = Some destination.
Proof.
  unfold calc_car_path.
  pose proof (calc_path_first pickup destination) as Hfirst.
  pose proof (calc_path_last pickup destination) as Hlast.
  pose proof (calc_path_last car_location pickup) as Hlast1.
  destruct (calc_path pickup destination) as [| a [| b rest]]; [done | |].
  - simpl in *. rewrite app_nil_r. congruence.
  - rewrite bool_decide_true by (simpl; lia).
    rewrite last_app. simpl drop. rewrite last_cons_cons in Hlast.
    by rewrite Hlast.
Qed.

(** A booking made while no other is active is alone on the road, its car
    on the first cell of a path that ends at the destination. *)
Lemma book_car_en_route (s s' : State) (pickup dest : Location) (book : Book) :
  NoDup (car_id <$> cars s) →
  bookings s = [] →
  book_car s pickup dest = (s', Some book) →
  ∃ k, en_route book k 0 s' ∧ last (path book) = Some (destination book).
Proof.
  intros Hc Hb. unfold book_car.
  pose proof (find_nearest_available_car_spec s pickup) as Hn.
  destruct (find_nearest_available_car s pickup) as [[k car] |];
    simpl in Hn; [| done].
  destruct Hn as (Hk & _). intros [= <- <-]. exists k.
  split; [split |]; simpl.
  - by rewrite Hb.
  - exists (set_path_location_index 0 (set_is_booked true car)).
    split_and!; [| reflexivity | apply calc_car_path_first].
    apply list_find_Some. simpl. split_and!; [| done |].
    + apply list_lookup_insert_eq. by eapply lookup_lt_Some.
    + intros j c Hj Hlt Heq. rewrite list_lookup_insert_ne in Hj by lia.
      assert (k = j) by (by eapply car_position_unique). lia.
  - apply calc_car_path_last.
Qed.

(** Where the first claim of the movement contract does hold: a booking
    made on unique car ids while no other is active, with [n + 2] path
    cells, is still active after [n] calls, and the next call brings its car
    to the destination, releases it and removes the booking. *)
Lemma fresh_sole_booking_arrives (s s' : State) (pickup dest : Location)
    (book : Book) (n : nat) :
  NoDup (car_id <$> cars s) →
  bookings s = [] →
  book_car s pickup dest = (s', Some book) →
  length (path book) = S (S n) →
  ∃ k,
    (∃ s1, ticks n s' = Returned s1 ∧ en_route book k n s1) ∧
    (∃ s2 car, ticks (S n) s' = Returned s2 ∧
               bookings s2 = [] ∧
               cars s2 !! k = Some car ∧
               is_booked car = false ∧
               location car = destination book).
Proof.
  intros Hc Hb Hbook Hlen.
  destruct (book_car_en_route s s' pickup dest book Hc Hb Hbook)
    as (k & Hroute & Hlast).
  exists k.
  destruct (sole_booking_arrives book k n s' Hroute Hlen)
    as [Hbefore (s2 & Hticks & Hnone & car & Hk & Hfree & _ & Hloc)].
  split; [done |]. exists s2, car. split_and!; try done.
  rewrite Hlast in Hloc. congruence.
Qed.

(** ** The two defects in general *)

(** The loop from [index] on leaves alone every car that no booking at
    [index] or later references. *)
Lemma increment_time_loop_frame fuel :
  ∀ index s s' j c,
    outcome_state (increment_time_loop fuel index s) = Some s' →
    cars s !! j = Some c →
    (∀ i b, (index ≤ i)%nat → bookings s !! i = Some b →
            book_car_id b ≠ car_id c) →
    cars s' !! j = Some c.
Proof.
  induction fuel as [| fuel IH]; intros index s s' j c; simpl.
  - destruct (bookings s !! index); [done | by intros [= <-]].
  - destruct (bookings s !! index) as [book |] eqn:Hbook; [| by intros [= <-]].
    destruct (get_car s (book_car_id book)) as [[k car] |] eqn:Hcar.
    + apply get_car_Some in Hcar as (Hk & Hid & _).
      intros Hrun Hj Hfar.
      assert (Hkj : k ≠ j).
      { intros ->. apply (Hfar index book); [lia | done | congruence]. }
      simpl in Hrun. destruct (py_index _ _) as [loc |].
      * case_bool_decide; apply (IH _ _ _ j c) in Hrun; try done; simpl.
        -- by rewrite list_lookup_insert_ne.
        -- intros i b Hi Hb. rewrite list_lookup_delete_ge in Hb by lia.
           apply (Hfar (S i) b); [lia | done].
        -- by rewrite list_lookup_insert_ne.
        -- intros i b Hi Hb. apply (Hfar i b); [lia | done].
      * injection Hrun as <-. simpl. by rewrite list_lookup_insert_ne.
    + intros Hrun Hj Hfar. apply (IH _ _ _ j c) in Hrun; [done | done |].
      intros i b Hi Hb. apply (Hfar i b); [lia | done].
Qed.

(** The skip: when the booking at [index] completes, the booking that
    follows it is not evaluated in this call; its car stays as it is. *)
Lemma booking_after_removal_is_skipped fuel index s s' book k car loc
    next k2 car2 :
  NoDup (book_car_id <$> bookings s) →
  bookings s !! index = Some book →
  get_car s (book_car_id book) = Some (k, car) →
  py_index (path book) (path_location_index car + 1) = Some loc →
  path_location_index car + 1 = Z.of_nat (length (path book)) - 1 →
  bookings s !! S index = Some next →
  get_car s (book_car_id next) = Some (k2, car2) →
  outcome_state (increment_time_loop (S fuel) index s) = Some s' →
  cars s' !! k2 = Some car2.
Proof.
  intros Hnd Hbook Hcar Hpy Hlast Hnext Hcar2.
  rewrite (increment_time_loop_arrive fuel index s book k car Hbook Hcar loc
             Hpy Hlast).
  assert (Hids : ∀ i b, bookings s !! i = Some b →
                        book_car_id b = book_car_id next → i = S index).
  { intros i b Hb Heq.
    apply (NoDup_lookup _ _ _ (book_car_id next) Hnd);
      rewrite list_lookup_fmap; [rewrite Hb | rewrite Hnext]; simpl;
      by rewrite ?Heq. }
  apply get_car_Some in Hcar as (Hk & Hid & _).
  apply get_car_Some in Hcar2 as (Hk2 & Hid2 & _).
  intros Hrun. apply (increment_time_loop_frame _ _ _ _ k2 car2) in Hrun;
    [done | |]; simpl.
  - rewrite list_lookup_insert_ne; [done |]. intros ->.
    assert (index = S index); [| lia].
    apply (Hids index book Hbook). congruence.
  - intros i b Hi Hb Heq. rewrite list_lookup_delete_ge in Hb by lia.
    assert (S i = S index); [| lia].
    apply (Hids (S i) b Hb). congruence.
Qed.

(** At the head of the list: if the first booking completes in a call of
    [increment_time], the car of the second booking does not move in it. *)
Lemma increment_time_skips_second (s s' : State) book next rest k car loc
    k2 car2 :
  NoDup (book_car_id <$> bookings s) →
  bookings s = book :: next :: rest →
  get_car s (book_car_id book) = Some (k, car) →
  py_index (path book) (path_location_index car + 1) = Some loc →
  path_location_index car + 1 = Z.of_nat (length (path book)) - 1 →
  get_car s (book_car_id next) = Some (k2, car2) →
  outcome_state (increment_time s) = Some s' →
  cars s' !! k2 = Some car2.
Proof.
  intros Hnd Hb Hcar Hpy Hlast Hcar2. unfold increment_time. simpl.
  rewrite Hb. simpl length.
  apply (booking_after_removal_is_skipped _ _ _ _ book k car loc next);
    simpl; try done; by rewrite Hb.
Qed.

(** The raise: a first booking whose car's next index is out of range makes
    [increment_time] raise, the clock and that index already advanced. *)
Lemma increment_time_raises_at_head (s : State) book rest k car :
  bookings s = book :: rest →
  get_car s (book_car_id book) = Some (k, car) →
  py_index (path book) (path_location_index car + 1) = None →
  increment_time s
  = IndexError
      (mkState
         (<[k := set_path_location_index (path_location_index car + 1) car]>
            (cars s))
         (bookings s) (current_time s + 1)).
Proof.
  intros Hb Hcar Hpy. unfold increment_time. simpl. rewrite Hb. simpl length.
  rewrite (increment_time_loop_raise _ _ _ book k car);
    [| by simpl; rewrite Hb | exact Hcar | exact Hpy].
  by rewrite <- Hb.
Qed.

(** ** Where the code departs from the specification *)

Lemma spot_booked_reachable : reachable spot_booked.
Proof. apply reachable_book, reachable_reset, reachable_empty. Qed.

Lemma two_booked_reachable : reachable two_booked.
Proof. do 2 apply reachable_book. apply reachable_reset, reachable_empty. Qed.

(** C4 (fails on the code). In the reachable state [spot_booked] the call
    [increment_time] does not complete: it advances the clock and car 1's
    index and then raises [IndexError] on [book.path[1]]. *)
Theorem increment_time_raises_on_spot_booking :
  reachable spot_booked ∧
  increment_time spot_booked
  = IndexError
      (mkState
         [ mkCar 1 "Toyota Prius" (mkLocation 0 0) true 1;
           mkCar 2 "Honda Civic" (mkLocation 0 0) false (-1);
           mkCar 3 "Ford Mustang" (mkLocation 0 0) false (-1) ]
         [ mkBook (mkLocation 0 0) (mkLocation 0 0) 1 [mkLocation 0 0] 0 ]
         1).
Proof. split; [apply spot_booked_reachable | reflexivity]. Qed.

(** C7 (fails on the code). [increment_time] is not atomic: from the
    reachable state [spot_booked] it raises, neither returning nor leaving
    the state as it was: the clock and car 1's path index have moved on. *)
Theorem increment_time_raise_keeps_partial_update :
  ∃ s', reachable spot_booked ∧
        increment_time spot_booked = IndexError s' ∧
        s' ≠ spot_booked ∧
        current_time s' = current_time spot_booked + 1 ∧
        path_location_index <$> cars spot_booked = [0; -1; -1] ∧
        path_location_index <$> cars s' = [1; -1; -1].
Proof.
  eexists. split_and!; [apply spot_booked_reachable | reflexivity | | done ..].
  intros [=].
Qed.

(** C3 (fails on the code). In the reachable state [two_booked] one
    [increment_time] removes the first booking, whose car 1 arrives, and
    does not evaluate the booking that follows it: car 2 keeps its location
    and its index 0, and its booking stays active. *)
Theorem increment_time_skips_booking_after_removal :
  ∃ s', reachable two_booked ∧
        bookings two_booked !! 1%nat = Some second_booking ∧
        cars two_booked !! 1%nat
        = Some (mkCar 2 "Honda Civic" (mkLocation 0 0) true 0) ∧
        increment_time two_booked = Returned s' ∧
        bookings s' = [second_booking] ∧
        cars s' !! 0%nat
        = Some (mkCar 1 "Toyota Prius" (mkLocation 1 0) false (-1)) ∧
        cars s' !! 1%nat
        = Some (mkCar 2 "Honda Civic" (mkLocation 0 0) true 0).
Proof.
  eexists. split_and!; [apply two_booked_reachable | reflexivity ..].
Qed.

(** C1 (fails on the code). The second booking of [two_booked] has a path
    of 2 + 1 cells, yet after 2 calls of [increment_time] its car 2 is at
    (1,0), not at the destination (2,0), is still booked, and the booking is
    still active; it arrives with the third call. *)
Theorem skipped_booking_arrives_late :
  ∃ s2 s3, reachable two_booked ∧
        second_booking ∈ bookings two_booked ∧
        length (path second_booking) = 3%nat ∧
        ticks 2 two_booked = Returned s2 ∧
        cars s2 !! 1%nat
        = Some (mkCar 2 "Honda Civic" (mkLocation 1 0) true 1) ∧
        bookings s2 = [second_booking] ∧
        ticks 3 two_booked = Returned s3 ∧
        cars s3 !! 1%nat
        = Some (mkCar 2 "Honda Civic" (mkLocation 2 0) false (-1)) ∧
        bookings s3 = [].
Proof.
  eexists _, _.
  split_and!; [apply two_booked_reachable | | reflexivity ..].
  apply list_elem_of_lookup. by exists 1%nat.
Qed.

(** * Further properties of the code *)

(** ** Locations and distances *)

(** [Location.__equals__] answers [True] exactly for two locations with
    the same coordinates. *)
Lemma Location_equals_spec (a b : Location) :
  Location_equals a b = true ↔ a = b.
Proof.
  unfold Location_equals. rewrite andb_true_iff, !bool_decide_eq_true.
  destruct a, b; simpl. split; [by intros [-> ->] | by intros [= -> ->]].
Qed.

(** X2. [calc_distance] is a metric on the grid: never negative, zero
    exactly between a location and itself, symmetric, and it satisfies the
    triangle inequality. *)
Theorem calc_distance_metric (a b c : Location) :
  0 ≤ calc_distance a b ∧
  (calc_distance a b = 0 ↔ a = b) ∧
  calc_distance a b = calc_distance b a ∧
  calc_distance a c ≤ calc_distance a b + calc_distance b c.
Proof.
  unfold calc_distance. split_and!; [lia | | lia | lia].
  destruct a, b; simpl. split; [| intros [= -> ->]; lia].
  intros Hzero. f_equal; lia.
Qed.

Lemma calc_distance_sym (a b : Location) :
  calc_distance a b = calc_distance b a.
Proof. unfold calc_distance. lia. Qed.

Lemma calc_distance_nonneg (a b : Location) : 0 ≤ calc_distance a b.
Proof. unfold calc_distance. lia. Qed.

Lemma length_calc_path_distance (a b : Location) :
  length (calc_path a b) = S (Z.to_nat (calc_distance a b)).
Proof.
  pose proof (length_calc_path a b). unfold calc_distance. lia.
Qed.

(** ** The path of a booking *)

Lemma calc_car_path_unfold (c p d : Location) :
  calc_car_path c p d = calc_path c p ++ drop 1 (calc_path p d).
Proof.
  unfold calc_car_path. rewrite bool_decide_true; [done |].
  rewrite length_calc_path_distance. lia.
Qed.

Lemma calc_car_path_lookup_l (c p d : Location) (i : nat) :
  (i ≤ Z.to_nat (calc_distance c p))%nat →
  calc_car_path c p d !! i = calc_path c p !! i.
Proof.
  intros Hi. rewrite calc_car_path_unfold, lookup_app_l; [done |].
  rewrite length_calc_path_distance. lia.
Qed.

Lemma calc_car_path_lookup_r (c p d : Location) (j : nat) :
  calc_car_path c p d !! (Z.to_nat (calc_distance c p) + j)%nat
  = calc_path p d !! j.
Proof.
  destruct j as [| j].
  - rewrite Nat.add_0_r, calc_car_path_lookup_l by lia.
    rewrite calc_path_first.
    pose proof (calc_path_last c p) as Hlast.
    rewrite last_lookup, length_calc_path_distance in Hlast. exact Hlast.
  - rewrite calc_car_path_unfold, lookup_app_r
      by (rewrite length_calc_path_distance; lia).
    rewrite length_calc_path_distance, lookup_drop. f_equal. lia.
Qed.

Lemma length_calc_car_path (c p d : Location) :
  Z.of_nat (length (calc_car_path c p d))
  = calc_distance c p + calc_distance p d + 1.
Proof.
  rewrite calc_car_path_unfold, length_app, length_drop.
  rewrite !length_calc_path_distance.
  pose proof (calc_distance_nonneg c p). pose proof (calc_distance_nonneg p d).
  lia.
Qed.

(** X3. [calc_car_path] joins the two legs without repeating the pickup:
    it has [distance(car, pickup) + distance(pickup, destination) + 1]
    cells, starts at the car, is at the pickup after [distance(car, pickup)]
    steps, ends at the destination, and consecutive cells are one unit
    apart along one axis. *)
Theorem calc_car_path_spec (car_location pickup dest : Location) :
  Z.of_nat (length (calc_car_path car_location pickup dest))
  = calc_distance car_location pickup + calc_distance pickup dest + 1 ∧
  head (calc_car_path car_location pickup dest) = Some car_location ∧
  calc_car_path car_location pickup dest
    !! Z.to_nat (calc_distance car_location pickup) = Some pickup ∧
  last (calc_car_path car_location pickup dest) = Some dest ∧
  (∀ (i : nat) a b,
     calc_car_path car_location pickup dest !! i = Some a →
     calc_car_path car_location pickup dest !! S i = Some b →
     unit_step a b).
Proof.
  split_and!.
  - apply length_calc_car_path.
  - rewrite head_lookup. apply calc_car_path_first.
  - rewrite <- (Nat.add_0_r (Z.to_nat _)), calc_car_path_lookup_r.
    apply calc_path_first.
  - apply calc_car_path_last.
  - intros i a b Ha Hb.
    destruct (decide (S i ≤ Z.to_nat (calc_distance car_location pickup))%nat)
      as [Hl | Hr].
    + rewrite calc_car_path_lookup_l in Ha, Hb by lia.
      by eapply calc_path_unit_steps.
    + replace i with (Z.to_nat (calc_distance car_location pickup)
                      + (i - Z.to_nat (calc_distance car_location pickup)))%nat
        in Ha by lia.
      replace (S i) with (Z.to_nat (calc_distance car_location pickup)
                          + S (i - Z.to_nat (calc_distance car_location pickup)))%nat
        in Hb by lia.
      rewrite calc_car_path_lookup_r in Ha, Hb.
      by eapply calc_path_unit_steps.
Qed.

Lemma booking_made_facts (b : Book) :
  booking_made b →
  total_time b = Z.of_nat (length (path b)) - 1 ∧
  last (path b) = Some (destination b) ∧
  path b !! Z.to_nat (total_time b - calc_distance (source b) (destination b))
  = Some (source b).
Proof.
  intros (c & Hpath & Htime). rewrite Hpath, Htime. split_and!.
  - rewrite length_calc_car_path, (calc_distance_sym (source b) c). lia.
  - apply calc_car_path_last.
  - replace (calc_distance (source b) c
             + calc_distance (source b) (destination b)
             - calc_distance (source b) (destination b))
      with (calc_distance c (source b))
      by (rewrite (calc_distance_sym (source b) c); lia).
    rewrite <- (Nat.add_0_r (Z.to_nat _)), calc_car_path_lookup_r.
    apply calc_path_first.
Qed.

Lemma book_car_booking_made (s s' : State) (pickup dest : Location)
    (book : Book) :
  book_car s pickup dest = (s', Some book) →
  booking_made book ∧ source book = pickup ∧ destination book = dest.
Proof.
  unfold book_car.
  destruct (find_nearest_available_car s pickup) as [[k car] |]; [| done].
  intros [= <- <-]. split; [| done]. by exists (location car).
Qed.

(** X4. The booking [book_car] returns keeps what was asked, and its
    [total_time] is the number of steps of its path: one less than the
    number of cells, the path ending at the destination and passing the
    pickup [distance(pickup, destination)] steps before the end. *)
Theorem book_car_total_time_is_path_steps (s s' : State)
    (pickup dest : Location) (book : Book) :
  book_car s pickup dest = (s', Some book) →
  source book = pickup ∧
  destination book = dest ∧
  total_time book = Z.of_nat (length (path book)) - 1 ∧
  last (path book) = Some dest ∧
  path book !! Z.to_nat (total_time book - calc_distance pickup dest)
  = Some pickup.
Proof.
  intros (Hmade & <- & <-)%book_car_booking_made.
  destruct (booking_made_facts book Hmade) as (? & ? & ?). done.
Qed.

Lemma book_car_total_time_is_path_steps_witness :
  ∃ book,
    (book_car (reset empty_state) (mkLocation 1 2) (mkLocation 3 (-1))).2
    = Some book ∧
    total_time book = Z.of_nat (length (path book)) - 1 ∧
    last (path book) = Some (mkLocation 3 (-1)).
Proof.
  eexists. split; [reflexivity |].
  destruct (book_car_total_time_is_path_steps (reset empty_state) _
              (mkLocation 1 2) (mkLocation 3 (-1)) _ eq_refl)
    as (_ & _ & Htime & Hlast & _).
  split; [exact Htime | exact Hlast].
Defined.

(** ** Lookups and listings *)

(** X5. [get_car] answers [None] exactly when no car has the id, and
    otherwise the first car of the list that has it. *)
Theorem get_car_spec (s : State) (id : Z) :
  (get_car s id = None ↔ id ∉ car_id <$> cars s) ∧
  (∀ k car,
     get_car s id = Some (k, car) ↔
     cars s !! k = Some car ∧ car_id car = id ∧
     ∀ j c, cars s !! j = Some c → (j < k)%nat → car_id c ≠ id).
Proof.
  unfold get_car. split.
  - rewrite list_find_None, Forall_forall, list_elem_of_fmap. split.
    + intros Hnone (car & -> & Hin). by apply (Hnone car).
    + intros Hout car Hin Hid. apply Hout. by exists car.
  - intros k car. apply (list_find_Some (λ c, car_id c = id)).
Qed.

Lemma length_filter_insert {A} (P : A → Prop) `{∀ a, Decision (P a)}
    (l : list A) (k : nat) (a a' : A) :
  l !! k = Some a →
  (length (filter P (<[k := a']> l)) + (if decide (P a) then 1 else 0)
   = length (filter P l) + (if decide (P a') then 1 else 0))%nat.
Proof.
  revert k. induction l as [| b l IH]; intros [| k] Hk; simplify_eq/=.
  - rewrite !filter_cons. repeat case_decide; simpl; lia.
  - rewrite !filter_cons. specialize (IH k Hk).
    destruct (decide (P b)); simpl; lia.
Qed.

(** X6. The [list_cars] route lists every car under exactly one value of
    the filter, each listing in the order of the fleet: the two listings
    are sublists of [cars] and together a rearrangement of it. *)
Theorem list_cars_partition (s : State) :
  list_cars s true `sublist_of` cars s ∧
  list_cars s false `sublist_of` cars s ∧
  list_cars s true ++ list_cars s false ≡ₚ cars s ∧
  (∀ car flag, car ∈ list_cars s flag ↔ car ∈ cars s ∧ is_booked car = flag).
Proof.
  unfold list_cars. split_and!; [apply sublist_filter .. | |].
  - rewrite (list_filter_iff (λ car, is_booked car = false)
               (λ car, ¬ is_booked car = true))
      by (intros car; destruct (is_booked car); naive_solver).
    apply filter_app_complement.
  - intros car flag. rewrite list_elem_of_filter. tauto.
Qed.

(** X7. [book_car] answers [None] exactly when [list_cars] has no unbooked
    car to show; when it books, the unbooked listing loses one car and the
    booked listing gains one. *)
Theorem book_car_and_list_cars (s : State) (pickup dest : Location) :
  ((book_car s pickup dest).2 = None ↔ list_cars s false = []) ∧
  (is_Some (book_car s pickup dest).2 →
   length (list_cars s false)
   = S (length (list_cars (book_car s pickup dest).1 false)) ∧
   length (list_cars (book_car s pickup dest).1 true)
   = S (length (list_cars s true))).
Proof.
  pose proof (find_nearest_available_car_spec s pickup) as Hn.
  unfold book_car, list_cars.
  destruct (find_nearest_available_car s pickup) as [[k car] |]; simpl in *.
  - destruct Hn as (Hk & Hfree & _). split.
    + split; [done |]. intros Hnil.
      assert (Hin : car ∈ filter (λ c, is_booked c = false) (cars s)).
      { apply list_elem_of_filter. split; [done |].
        by eapply list_elem_of_lookup_2. }
      rewrite Hnil in Hin. by apply elem_of_nil in Hin.
    + intros _.
      pose proof (length_filter_insert (λ c, is_booked c = false) (cars s) k
                    car (set_path_location_index 0 (set_is_booked true car))
                    Hk) as Hfalse.
      pose proof (length_filter_insert (λ c, is_booked c = true) (cars s) k
                    car (set_path_location_index 0 (set_is_booked true car))
                    Hk) as Htrue.
      simpl in Hfalse, Htrue. rewrite Hfree in Hfalse, Htrue.
      repeat case_decide; try done. lia.
  - split; [| by intros [? [=]]]. split; [| done]. intros _.
    induction Hn as [| c l Hc _ IH]; [done |].
    rewrite filter_cons_False; [done |]. by rewrite Hc.
Qed.

(** ** What the operations leave alone *)

Lemma fleet_insert (s : State) (k : nat) (car car' : Car) :
  cars s !! k = Some car →
  car_id car' = car_id car →
  name car' = name car →
  fleet (set_cars (<[k := car']> (cars s)) s) = fleet s.
Proof.
  intros Hk Hid Hname. unfold fleet. simpl.
  rewrite list_fmap_insert. apply list_insert_id.
  rewrite list_lookup_fmap, Hk. simpl. by rewrite Hid, Hname.
Qed.

Lemma book_car_fleet (s : State) (pickup dest : Location) :
  fleet (book_car s pickup dest).1 = fleet s.
Proof.
  pose proof (find_nearest_available_car_spec s pickup) as Hn.
  unfold book_car.
  destruct (find_nearest_available_car s pickup) as [[k car] |];
    simpl in *; [| done].
  destruct Hn as (Hk & _). by apply (fleet_insert s k car).
Qed.

Lemma increment_time_loop_fleet fuel :
  ∀ index s s',
    outcome_state (increment_time_loop fuel index s) = Some s' →
    fleet s' = fleet s.
Proof.
  induction fuel as [| fuel IH]; intros index s s'; simpl.
  - destruct (bookings s !! index); [done | by intros [= <-]].
  - destruct (bookings s !! index) as [book |]; [| by intros [= <-]].
    destruct (get_car s (book_car_id book)) as [[k car] |] eqn:Hcar;
      [| by apply IH].
    apply get_car_Some in Hcar as (Hk & _).
    simpl. destruct (py_index _ _) as [loc |].
    + case_bool_decide; intros ->%IH; by apply (fleet_insert s k car).
    + intros [= <-]. by apply (fleet_insert s k car).
Qed.

Lemma increment_time_fleet (s s' : State) :
  outcome_state (increment_time s) = Some s' → fleet s' = fleet s.
Proof. unfold increment_time. by intros ->%increment_time_loop_fleet. Qed.

(** X8. Only [reset] touches the fleet: [book_car] and [increment_time],
    returning or raising, leave the ids and names of the cars, their number
    and their order as they were; so the service, once reset, always has
    the three cars of [reset], in that order. *)
Theorem fleet_is_fixed (s : State) :
  (∀ pickup dest, fleet (book_car s pickup dest).1 = fleet s) ∧
  (∀ s', outcome_state (increment_time s) = Some s' → fleet s' = fleet s) ∧
  (reachable s →
   fleet s = [] ∨
   fleet s = [(1, "Toyota Prius"%string); (2, "Honda Civic"%string);
              (3, "Ford Mustang"%string)]).
Proof.
  split_and!.
  - intros pickup dest. apply book_car_fleet.
  - intros s'. apply increment_time_fleet.
  - induction 1 as [| s _ _ | s pickup dest _ IH | s s' _ IH Hrun].
    + by left.
    + by right.
    + by rewrite book_car_fleet.
    + by rewrite (increment_time_fleet s s' Hrun).
Qed.

Lemma tick_requests_S (n : nat) (s : State) :
  ∃ s', outcome_state (increment_time s) = Some s' ∧
        tick_requests (S n) s = tick_requests n s'.
Proof.
  pose proof (increment_time_terminates s) as Hterm. simpl.
  destruct (increment_time s) as [s' | s' |]; [by exists s' .. | done].
Qed.

(** X9. The clock counts the [/tick] requests: [n] requests in a row
    advance [current_time] by exactly [n], whether they return or raise. *)
Theorem clock_counts_tick_requests (n : nat) (s : State) :
  current_time (tick_requests n s) = current_time s + Z.of_nat n.
Proof.
  revert s. induction n as [| n IH]; intros s; [simpl; lia |].
  destruct (tick_requests_S n s) as (s' & Hrun & ->).
  destruct (increment_time_clock s) as (s'' & Hrun' & Hclock).
  rewrite Hrun in Hrun'. injection Hrun' as <-.
  rewrite IH, Hclock. lia.
Qed.

Lemma increment_time_loop_shrinks fuel :
  ∀ index s s',
    outcome_state (increment_time_loop fuel index s) = Some s' →
    bookings s' `sublist_of` bookings s ∧
    length (cars s') = length (cars s) ∧
    ∀ k c', cars s' !! k = Some c' →
            ∃ c, cars s !! k = Some c ∧
                 (is_booked c' = true → is_booked c = true).
Proof.
  assert (Hstore : ∀ (l : list Car) k car car' j c',
            l !! k = Some car →
            (is_booked car' = true → is_booked car = true) →
            <[k := car']> l !! j = Some c' →
            ∃ c, l !! j = Some c ∧ (is_booked c' = true → is_booked c = true)).
  { intros l k car car' j c' Hk Hflag
      [(-> & <- & _) | (_ & Hj)]%list_lookup_insert_Some; eauto. }
  induction fuel as [| fuel IH]; intros index s s'; simpl.
  - destruct (bookings s !! index); [done |]. intros [= <-]. eauto.
  - destruct (bookings s !! index) as [book |]; [| intros [= <-]; eauto].
    destruct (get_car s (book_car_id book)) as [[k car] |] eqn:Hcar;
      [| by apply IH].
    apply get_car_Some in Hcar as (Hk & _).
    simpl. destruct (py_index _ _) as [loc |].
    + case_bool_decide; intros (Hsub & Hlen & Hflags)%IH; simpl in *;
        rewrite length_insert in Hlen.
      * split_and!; [| done |].
        -- etrans; [exact Hsub | apply sublist_delete].
        -- intros j c' (c & Hj & Himp)%Hflags.
           eapply Hstore in Hj as (c0 & Hc0 & Himp0); [| exact Hk | done].
           exists c0. split; [done |]. auto.
      * split_and!; [done | done |].
        intros j c' (c & Hj & Himp)%Hflags.
        eapply Hstore in Hj as (c0 & Hc0 & Himp0); [| exact Hk | done].
        exists c0. split; [done |]. auto.
    + intros [= <-]. simpl. rewrite length_insert. split_and!; [done | done |].
      intros j c' Hj. by eapply Hstore in Hj; [| exact Hk | done].
Qed.

(** X10. [increment_time] books nothing: returning or raising, it adds no
    booking and keeps the remaining bookings in their order, and no car
    that was unbooked before the call is booked after it. *)
Theorem increment_time_books_nothing (s s' : State) :
  outcome_state (increment_time s) = Some s' →
  bookings s' `sublist_of` bookings s ∧
  ∀ k c', cars s' !! k = Some c' →
          ∃ c, cars s !! k = Some c ∧
               (is_booked c' = true → is_booked c = true).
Proof.
  unfold increment_time.
  intros (Hsub & _ & Hflags)%increment_time_loop_shrinks. done.
Qed.

Lemma increment_time_books_nothing_witness :
  ∃ s', outcome_state (increment_time two_booked) = Some s' ∧
        bookings s' `sublist_of` bookings two_booked.
Proof.
  eexists. split; [reflexivity |].
  exact (proj1 (increment_time_books_nothing two_booked _ eq_refl)).
Defined.

(** ** The state the service keeps *)

Lemma list_find_insert_other {A} (P : A → Prop) `{∀ a, Decision (P a)}
    (l : list A) (k : nat) (a a' : A) :
  l !! k = Some a → ¬ P a → ¬ P a' →
  list_find P (<[k := a']> l) = list_find P l.
Proof.
  revert k. induction l as [| b l IH]; intros [| k] Hk Ha Ha'; simplify_eq/=.
  - by rewrite !decide_False.
  - by rewrite IH.
Qed.

Lemma get_car_insert_other s k car car' id :
  cars s !! k = Some car →
  car_id car' = car_id car →
  car_id car ≠ id →
  get_car (set_cars (<[k := car']> (cars s)) s) id = get_car s id.
Proof.
  intros Hk Hid Hne. unfold get_car. simpl.
  apply (list_find_insert_other _ _ _ car); [done | done | congruence].
Qed.

Lemma booking_by_id (s : State) (b b' : Book) :
  NoDup (book_car_id <$> bookings s) →
  b ∈ bookings s → b' ∈ bookings s →
  book_car_id b = book_car_id b' → b = b'.
Proof.
  intros Hnd [i Hi]%list_elem_of_lookup [j Hj]%list_elem_of_lookup Heq.
  assert (i = j) as ->; [| congruence].
  apply (NoDup_lookup _ _ _ (book_car_id b) Hnd); rewrite list_lookup_fmap.
  - by rewrite Hi.
  - rewrite Hj. simpl. by rewrite Heq.
Qed.

(** The three ways the index of a tracked car moves on. *)
Lemma tracked_move (b : Book) (car : Car) (loc : Location) :
  tracked b car →
  py_index (path b) (path_location_index car + 1) = Some loc →
  path_location_index car + 1 ≠ Z.of_nat (length (path b)) - 1 →
  tracked b (set_location loc
               (set_path_location_index (path_location_index car + 1) car)).
Proof.
  intros [Hpos [[Hlt Hat] | Hone]] Hpy Hne; unfold py_index in Hpy.
  - rewrite !bool_decide_true in Hpy by lia.
    split; simpl; [lia |]. left. split; [lia | done].
  - rewrite Hone in Hpy. simpl in Hpy.
    rewrite bool_decide_true, bool_decide_false in Hpy by lia. done.
Qed.

Lemma tracked_raise (b : Book) (car : Car) :
  tracked b car →
  py_index (path b) (path_location_index car + 1) = None →
  path b = [location car] ∧
  tracked b (set_path_location_index (path_location_index car + 1) car).
Proof.
  intros [Hpos [[Hlt Hat] | Hone]] Hpy; unfold py_index in Hpy.
  - rewrite !bool_decide_true in Hpy by lia.
    apply lookup_ge_None in Hpy. lia.
  - split; [done |]. split; simpl; [lia | by right].
Qed.

Lemma tracked_arrive (b : Book) (car : Car) (loc : Location) :
  tracked b car →
  py_index (path b) (path_location_index car + 1) = Some loc →
  path_location_index car + 1 = Z.of_nat (length (path b)) - 1 →
  last (path b) = Some loc.
Proof.
  intros [Hpos _] Hpy Heq. unfold py_index in Hpy.
  rewrite !bool_decide_true in Hpy by lia.
  rewrite last_lookup, <- Hpy. f_equal. lia.
Qed.

Section service_inv_steps.
Variables (s : State) (book : Book) (k : nat) (car : Car).
Hypothesis Hinv : service_inv s.
Hypothesis Hin : book ∈ bookings s.
Hypothesis Hcar : get_car s (book_car_id book) = Some (k, car).

Lemma service_inv_car : is_booked car = true ∧ tracked book car.
Proof.
  destruct Hinv as (_ & _ & Hbooks).
  destruct (Hbooks book Hin) as (_ & k0 & car0 & Hcar0 & ? & ?).
  rewrite Hcar in Hcar0. by injection Hcar0 as <- <-.
Qed.

Lemma service_inv_store (car' : Car) :
  car_id car' = car_id car →
  is_booked car' = true →
  tracked book car' →
  service_inv (set_cars (<[k := car']> (cars s)) s).
Proof.
  intros Hid Hflag Htracked.
  destruct service_inv_car as [Hbooked _].
  destruct Hinv as (Hd & Hrest & Hbooks).
  pose proof (get_car_Some _ _ _ _ Hcar) as (Hk & Hkid & _).
  split_and!.
  - apply (dispatch_inv_move s k car); [done | done | done | congruence].
  - simpl. intros c [j Hj]%list_elem_of_lookup Hfree.
    apply list_lookup_insert_Some in Hj as [(-> & <- & _) | (_ & Hj)];
      [congruence |].
    apply Hrest; [by eapply list_elem_of_lookup_2 | done].
  - simpl. intros b Hb. destruct (Hbooks b Hb) as (Hmade & Hcarb).
    split; [done |].
    destruct (decide (book_car_id b = book_car_id book)) as [Heq | Hne].
    + assert (b = book) as ->
        by (by apply (booking_by_id s); [apply Hd | ..]).
      exists k, car'. split_and!; [| done | done].
      apply (get_car_insert s k car); [done | congruence].
    + destruct Hcarb as (kb & carb & Hcarb & ? & ?).
      exists kb, carb. split_and!; [| done | done].
      rewrite get_car_insert_other with (car := car); [done | done | done |].
      congruence.
Qed.

Lemma service_inv_release (index : nat) (car' : Car) :
  bookings s !! index = Some book →
  car_id car' = car_id car →
  is_booked car' = false →
  path_location_index car' = -1 →
  service_inv
    (set_bookings (delete index (bookings s))
       (set_cars (<[k := car']> (cars s)) s)).
Proof.
  intros Hindex Hid Hflag Hidx.
  destruct Hinv as (Hd & Hrest & Hbooks).
  pose proof (get_car_Some _ _ _ _ Hcar) as (Hk & Hkid & _).
  split_and!.
  - by apply (dispatch_inv_complete s k car car' index book).
  - simpl. intros c [j Hj]%list_elem_of_lookup Hfree.
    apply list_lookup_insert_Some in Hj as [(-> & <- & _) | (_ & Hj)];
      [done |].
    apply Hrest; [by eapply list_elem_of_lookup_2 | done].
  - simpl. intros b Hb.
    apply elem_of_delete_NoDup with (a := book) in Hb as [Hb Hne];
      [| eapply NoDup_fmap_1; apply Hd | done].
    destruct (Hbooks b Hb) as (Hmade & kb & carb & Hcarb & ? & ?).
    split; [done |]. exists kb, carb. split_and!; [| done | done].
    change (get_car (set_cars (<[k := car']> (cars s)) s) (book_car_id b)
            = Some (kb, carb)).
    rewrite get_car_insert_other with (car := car); [done | done | done |].
    rewrite Hkid. intros Heq. apply Hne.
    by apply (booking_by_id s); [apply Hd | ..].
Qed.

End service_inv_steps.

Lemma increment_time_loop_service_inv fuel :
  ∀ index s s',
    service_inv s →
    outcome_state (increment_time_loop fuel index s) = Some s' →
    service_inv s'.
Proof.
  induction fuel as [| fuel IH]; intros index s s' Hinv; simpl.
  - destruct (bookings s !! index); [done | by intros [= <-]].
  - destruct (bookings s !! index) as [book |] eqn:Hbook; [| by intros [= <-]].
    destruct (get_car s (book_car_id book)) as [[k car] |] eqn:Hcar;
      [| by apply IH].
    assert (Hin : book ∈ bookings s) by (by eapply list_elem_of_lookup_2).
    destruct (service_inv_car s book k car Hinv Hin Hcar) as [Hflag Htr].
    simpl. destruct (py_index _ _) as [loc |] eqn:Hpy.
    + case_bool_decide; apply IH.
      * by apply (service_inv_release s book k car).
      * apply (service_inv_store s book k car); try done.
        by apply tracked_move.
    + intros [= <-]. apply (service_inv_store s book k car); try done.
      by apply tracked_raise.
Qed.

Lemma increment_time_service_inv (s s' : State) :
  service_inv s →
  outcome_state (increment_time s) = Some s' →
  service_inv s'.
Proof.
  intros Hinv. unfold increment_time.
  apply increment_time_loop_service_inv. exact Hinv.
Qed.

Lemma get_car_insert_unique s k car car' :
  NoDup (car_id <$> cars s) →
  cars s !! k = Some car →
  car_id car' = car_id car →
  get_car (set_cars (<[k := car']> (cars s)) s) (car_id car) = Some (k, car').
Proof.
  intros Hc Hk Hid. apply list_find_Some. simpl. split_and!; [| done |].
  - apply list_lookup_insert_eq. by eapply lookup_lt_Some.
  - intros j c Hj Hlt Heq. rewrite list_lookup_insert_ne in Hj by lia.
    assert (k = j) by (by eapply car_position_unique). lia.
Qed.

Lemma tracked_fresh (b : Book) (car : Car) :
  path b !! 0%nat = Some (location car) →
  path_location_index car = 0 →
  tracked b car.
Proof.
  intros Hfirst Hidx. split; [lia |]. rewrite Hidx.
  destruct (path b) as [| a [| a' l]]; simplify_eq/=.
  - by right.
  - left. split; [lia | done].
Qed.

Lemma book_car_service_inv (s : State) (pickup dest : Location) :
  service_inv s → service_inv (book_car s pickup dest).1.
Proof.
  intros (Hd & Hrest & Hbooks).
  pose proof (find_nearest_available_car_spec s pickup) as Hn.
  unfold book_car.
  destruct (find_nearest_available_car s pickup) as [[k car] |];
    simpl in *; [| done].
  destruct Hn as (Hk & Hfree & _).
  assert (Hnew : car_id car ∉ book_car_id <$> bookings s).
  { destruct Hd as (_ & _ & Hiff).
    rewrite <- (Hiff car) by (by eapply list_elem_of_lookup_2). congruence. }
  split_and!.
  - by apply (dispatch_inv_book s k car).
  - simpl. intros c [j Hj]%list_elem_of_lookup Hc.
    apply list_lookup_insert_Some in Hj as [(-> & <- & _) | (_ & Hj)];
      [done |].
    apply Hrest; [by eapply list_elem_of_lookup_2 | done].
  - simpl. intros b [Hb | ->%list_elem_of_singleton]%elem_of_app.
    + destruct (Hbooks b Hb) as (Hmade & kb & carb & Hcarb & ? & ?).
      split; [done |]. exists kb, carb. split_and!; [| done | done].
      change (get_car
                (set_cars
                   (<[k := set_path_location_index 0 (set_is_booked true car)]>
                      (cars s)) s) (book_car_id b) = Some (kb, carb)).
      rewrite get_car_insert_other with (car := car); [done | done | done |].
      intros Heq. apply Hnew. rewrite Heq. by apply list_elem_of_fmap_2.
    + split; [by exists (location car) |].
      exists k, (set_path_location_index 0 (set_is_booked true car)).
      split_and!; [| done |].
      * apply (get_car_insert_unique s k car); [apply Hd | done | done].
      * apply tracked_fresh; [apply calc_car_path_first | done].
Qed.

Lemma reset_service_inv (s : State) : service_inv (reset s).
Proof.
  split_and!; [apply reset_inv | | by intros b ?%elem_of_nil].
  simpl. intros car Hcar _.
  repeat (apply elem_of_cons in Hcar as [-> | Hcar]); try done.
  by apply elem_of_nil in Hcar.
Qed.

Lemma reachable_service_inv (s : State) : reachable s → service_inv s.
Proof.
  induction 1 as [| s _ _ | s pickup dest _ IH | s s' _ IH Hrun].
  - split_and!; [| by intros car ?%elem_of_nil | by intros b ?%elem_of_nil].
    split_and!; simpl; [apply NoDup_nil_2 .. |]. by intros car ?%elem_of_nil.
  - apply reset_service_inv.
  - by apply book_car_service_inv.
  - by eapply increment_time_service_inv.
Qed.

Lemma booked_car_has_booking (s : State) (j : nat) (car : Car) :
  service_inv s →
  cars s !! j = Some car →
  is_booked car = true →
  ∃ b, b ∈ bookings s ∧ book_car_id b = car_id car ∧
       get_car s (car_id car) = Some (j, car) ∧
       booking_made b ∧ tracked b car.
Proof.
  intros ((Hc & _ & Hiff) & _ & Hbooks) Hj Hflag.
  apply Hiff in Hflag; [| by eapply list_elem_of_lookup_2].
  apply list_elem_of_fmap in Hflag as (b & Hid & Hb).
  destruct (Hbooks b Hb) as (Hmade & kb & carb & Hcarb & _ & Htr).
  exists b. rewrite Hid.
  pose proof (get_car_Some _ _ _ _ Hcarb) as (Hkb & Hidb & _).
  assert (j = kb) as -> by (eapply car_position_unique; [done .. | congruence]).
  assert (carb = car) as -> by congruence.
  done.
Qed.

(** X11. In every state the service reaches, a car without booking rests
    at path index -1 and a booked car has an index that is not negative: the
    subscript of [increment_time] never counts from the end of the path. *)
Theorem path_index_sign (s : State) (car : Car) :
  reachable s →
  car ∈ cars s →
  (is_booked car = false → path_location_index car = -1) ∧
  (is_booked car = true → 0 ≤ path_location_index car).
Proof.
  intros Hinv%reachable_service_inv [j Hj]%list_elem_of_lookup. split.
  - destruct Hinv as (_ & Hrest & _). apply Hrest.
    by eapply list_elem_of_lookup_2.
  - intros Hflag.
    destruct (booked_car_has_booking s j car Hinv Hj Hflag)
      as (b & _ & _ & _ & _ & [Hpos _]). done.
Qed.

Lemma path_index_sign_witness :
  (is_booked (mkCar 2 "Honda Civic" (mkLocation 0 0) true 0) = false →
   path_location_index (mkCar 2 "Honda Civic" (mkLocation 0 0) true 0) = -1) ∧
  (is_booked (mkCar 2 "Honda Civic" (mkLocation 0 0) true 0) = true →
   0 ≤ path_location_index (mkCar 2 "Honda Civic" (mkLocation 0 0) true 0)).
Proof.
  apply (path_index_sign two_booked).
  - do 2 apply reachable_book. apply reachable_reset, reachable_empty.
  - apply list_elem_of_lookup. by exists 1%nat.
Defined.

(** X12. In every state the service reaches, each active booking is one
    [book_car] made: its [total_time] is the number of steps of its path,
    which ends at its destination; and its car is in the fleet, booked, and
    stands on a cell of that path. *)
Theorem active_booking_has_car_on_path (s : State) (b : Book) :
  reachable s →
  b ∈ bookings s →
  total_time b = Z.of_nat (length (path b)) - 1 ∧
  last (path b) = Some (destination b) ∧
  ∃ k car, get_car s (book_car_id b) = Some (k, car) ∧
           is_booked car = true ∧
           location car ∈ path b.
Proof.
  intros (_ & _ & Hbooks)%reachable_service_inv Hb.
  destruct (Hbooks b Hb) as (Hmade & k & car & Hcar & Hflag & Htr).
  destruct (booking_made_facts b Hmade) as (Htime & Hlast & _).
  split_and!; [done | done |]. exists k, car. split_and!; [done | done |].
  destruct Htr as [_ [[_ Hat] | Hone]].
  - by eapply list_elem_of_lookup_2.
  - rewrite Hone. by left.
Qed.

Lemma active_booking_has_car_on_path_witness :
  total_time second_booking = Z.of_nat (length (path second_booking)) - 1 ∧
  last (path second_booking) = Some (destination second_booking) ∧
  ∃ k car, get_car two_booked (book_car_id second_booking) = Some (k, car) ∧
           is_booked car = true ∧
           location car ∈ path second_booking.
Proof.
  apply (active_booking_has_car_on_path two_booked second_booking).
  - do 2 apply reachable_book. apply reachable_reset, reachable_empty.
  - apply list_elem_of_lookup. by exists 1%nat.
Defined.

Lemma increment_time_loop_returns fuel :
  ∀ index s s',
    service_inv s →
    (∀ b, b ∈ bookings s → length (path b) ≠ 1%nat) →
    increment_time_loop fuel index s ≠ IndexError s'.
Proof.
  induction fuel as [| fuel IH]; intros index s s' Hinv Hlong; simpl.
  - by destruct (bookings s !! index).
  - destruct (bookings s !! index) as [book |] eqn:Hbook; [| done].
    destruct (get_car s (book_car_id book)) as [[k car] |] eqn:Hcar;
      [| by apply IH].
    assert (Hin : book ∈ bookings s) by (by eapply list_elem_of_lookup_2).
    destruct (service_inv_car s book k car Hinv Hin Hcar) as [Hflag Htr].
    simpl. destruct (py_index _ _) as [loc |] eqn:Hpy.
    + case_bool_decide; apply IH.
      * by apply (service_inv_release s book k car).
      * simpl. intros b Hb. apply Hlong.
        by eapply list_elem_of_delete_inv.
      * apply (service_inv_store s book k car); try done.
        by apply tracked_move.
      * done.
    + destruct (tracked_raise book car Htr Hpy) as [Hone _].
      destruct (Hlong book Hin). by rewrite Hone.
Qed.

(** X13. In a state the service reaches, [increment_time] returns whenever
    every active booking has a [total_time] of at least 1: the [IndexError]
    needs a booking of no length, made for a car standing on a pickup that
    is also the destination. *)
Theorem increment_time_returns_without_spot_booking (s : State) :
  reachable s →
  (∀ b, b ∈ bookings s → 0 < total_time b) →
  ∃ s', increment_time s = Returned s'.
Proof.
  intros Hinv%reachable_service_inv Hlong.
  pose proof (increment_time_terminates s) as Hterm.
  destruct (increment_time s) as [s' | s' |] eqn:Hrun; [by exists s' | | done].
  exfalso. unfold increment_time in Hrun.
  apply (increment_time_loop_returns _ _ _ s') in Hrun; [done | exact Hinv |].
  simpl. intros b Hb Hone.
  destruct Hinv as (_ & _ & Hbooks).
  destruct (Hbooks b Hb) as (Hmade & _).
  destruct (booking_made_facts b Hmade) as (Htime & _).
  specialize (Hlong b Hb). lia.
Qed.

Lemma increment_time_returns_without_spot_booking_witness :
  ∃ s', increment_time two_booked = Returned s'.
Proof.
  apply increment_time_returns_without_spot_booking.
  - do 2 apply reachable_book. apply reachable_reset, reachable_empty.
  - intros b Hb. vm_compute in Hb.
    repeat (apply elem_of_cons in Hb as [-> | Hb]); [done .. |].
    by apply elem_of_nil in Hb.
Defined.

(** X14. [get_booking] raises [StopIteration] exactly when no active
    booking has the car id, and otherwise answers an active booking with
    that id; in a state the service reaches it answers for a car of the
    fleet exactly when the car is booked. *)
Theorem get_booking_spec (s : State) (id : Z) :
  (get_booking s id = None ↔ id ∉ book_car_id <$> bookings s) ∧
  (∀ b, get_booking s id = Some b → b ∈ bookings s ∧ book_car_id b = id) ∧
  (reachable s →
   ∀ car, car ∈ cars s →
          is_booked car = true ↔ is_Some (get_booking s (car_id car))).
Proof.
  assert (Hnone : ∀ i, get_booking s i = None ↔ i ∉ book_car_id <$> bookings s).
  { intros i. unfold get_booking.
    rewrite fmap_None, (list_find_None (λ b, book_car_id b = i)).
    rewrite Forall_forall, list_elem_of_fmap. split.
    - intros Hno (b & -> & Hb). by apply (Hno b).
    - intros Hout b Hb Hid. apply Hout. by exists b. }
  split_and!.
  - apply Hnone.
  - intros b. unfold get_booking.
    intros ([i b'] & Hfind & ->)%fmap_Some.
    apply (list_find_Some (λ b, book_car_id b = id)) in Hfind as (Hi & Hid & _).
    split; [by eapply list_elem_of_lookup_2 | done].
  - intros (_ & _ & Hiff)%reachable_inv car Hcar.
    rewrite (Hiff car Hcar), <- not_eq_None_Some, Hnone.
    split; [by intros ? ? | apply dec_stable].
Qed.

(** X15. In every state the service reaches there are as many booked cars
    as active bookings: the booked listing of [list_cars] and the list of
    bookings have the same length, at most the size of the fleet. *)
Theorem booked_cars_match_bookings (s : State) :
  reachable s →
  length (list_cars s true) = length (bookings s) ∧
  (length (bookings s) ≤ length (cars s))%nat.
Proof.
  intros Hinv%reachable_service_inv.
  assert (Hlen : length (list_cars s true) = length (bookings s)).
  { destruct Hinv as ((Hc & Hb & Hiff) & _ & Hbooks).
    rewrite <- (length_fmap car_id (list_cars s true)).
    rewrite <- (length_fmap book_car_id (bookings s)).
    apply Permutation_length, NoDup_Permutation; [| done |].
    - eapply sublist_NoDup; [exact Hc |].
      apply fmap_sublist, sublist_filter.
    - intros id. unfold list_cars. rewrite !list_elem_of_fmap. split.
      + intros (car & -> & [Hflag Hcar]%list_elem_of_filter).
        apply list_elem_of_fmap. by apply Hiff.
      + intros (b & -> & Hb').
        destruct (Hbooks b Hb') as (_ & k & car & Hcar & Hflag & _).
        apply get_car_Some in Hcar as (Hk & Hid & _).
        exists car. split; [done |]. apply list_elem_of_filter.
        split; [done | by eapply list_elem_of_lookup_2]. }
  split; [done |]. rewrite <- Hlen. apply length_filter.
Qed.

Lemma booked_cars_match_bookings_witness :
  length (list_cars two_booked true) = length (bookings two_booked) ∧
  (length (bookings two_booked) ≤ length (cars two_booked))%nat.
Proof.
  apply booked_cars_match_bookings.
  do 2 apply reachable_book. apply reachable_reset, reachable_empty.
Defined.

(** ** Booking the whole fleet *)

(** Resolves the comparisons of the selection loop on cars that are all
    at the same place. *)
Ltac settle_comparisons :=
  repeat (first [ rewrite bool_decide_true by (done || lia)
                | rewrite bool_decide_false by lia ]; simpl).

(** X16. After [reset], with no tick in between, three bookings succeed
    whatever the pickups and destinations and take the cars 1, 2 and 3 in
    that order; a fourth finds no car and changes nothing. *)
Theorem reset_then_book_whole_fleet (s : State)
    (p1 d1 p2 d2 p3 d3 p4 d4 : Location) :
  ∃ s1 b1 s2 b2 s3 b3,
    book_car (reset s) p1 d1 = (s1, Some b1) ∧ book_car_id b1 = 1 ∧
    book_car s1 p2 d2 = (s2, Some b2) ∧ book_car_id b2 = 2 ∧
    book_car s2 p3 d3 = (s3, Some b3) ∧ book_car_id b3 = 3 ∧
    book_car s3 p4 d4 = (s3, None).
Proof.
  assert (H1 : ∀ p, find_nearest_available_car (reset s) p
                    = Some (0%nat, mkCar 1 "Toyota Prius" (mkLocation 0 0)
                                     false (-1))).
  { intros p. unfold find_nearest_available_car. simpl.
    settle_comparisons. reflexivity. }
  assert (H2 : ∀ st p,
            cars st = [ mkCar 1 "Toyota Prius" (mkLocation 0 0) true 0;
                        mkCar 2 "Honda Civic" (mkLocation 0 0) false (-1);
                        mkCar 3 "Ford Mustang" (mkLocation 0 0) false (-1) ] →
            find_nearest_available_car st p
            = Some (1%nat, mkCar 2 "Honda Civic" (mkLocation 0 0) false (-1))).
  { intros st p Hcars. unfold find_nearest_available_car. rewrite Hcars. simpl.
    settle_comparisons. reflexivity. }
  assert (H3 : ∀ st p,
            cars st = [ mkCar 1 "Toyota Prius" (mkLocation 0 0) true 0;
                        mkCar 2 "Honda Civic" (mkLocation 0 0) true 0;
                        mkCar 3 "Ford Mustang" (mkLocation 0 0) false (-1) ] →
            find_nearest_available_car st p
            = Some (2%nat, mkCar 3 "Ford Mustang" (mkLocation 0 0) false (-1))).
  { intros st p Hcars. unfold find_nearest_available_car. rewrite Hcars. simpl.
    settle_comparisons. reflexivity. }
  eexists _, _, _, _, _, _.
  split; [unfold book_car; rewrite H1; reflexivity |].
  split; [reflexivity |].
  split; [unfold book_car; rewrite H2 by reflexivity; reflexivity |].
  split; [reflexivity |].
  split; [unfold book_car; rewrite H3 by reflexivity; reflexivity |].
  split; reflexivity.
Qed.

(** ** A booking that cannot move *)

Lemma wedged_step (book : Book) (rest : list Book) (k : nat) (s : State) :
  wedged book rest k s →
  ∃ s', increment_time s = IndexError s' ∧
        wedged book rest k s' ∧
        location <$> cars s' = location <$> cars s ∧
        is_booked <$> cars s' = is_booked <$> cars s.
Proof.
  intros (Hb & car & Hcar & Hpast).
  assert (Hpy : py_index (path book) (path_location_index car + 1) = None).
  { unfold py_index. rewrite bool_decide_true by lia.
    by rewrite bool_decide_false by lia. }
  pose proof (get_car_Some _ _ _ _ Hcar) as (Hk & Hid & _).
  eexists. split; [by apply (increment_time_raises_at_head s book rest k car) |].
  split_and!; simpl.
  - split; [done |].
    exists (set_path_location_index (path_location_index car + 1) car).
    split; [| simpl; lia].
    by apply (get_car_insert s k car).
  - rewrite list_fmap_insert. apply list_insert_id.
    by rewrite list_lookup_fmap, Hk.
  - rewrite list_fmap_insert. apply list_insert_id.
    by rewrite list_lookup_fmap, Hk.
Qed.

(** X17. Once the first booking of the list has its car's next index past
    the end of its path, the service is stuck until [reset]: every further
    [/tick] request raises [IndexError], no booking is ever removed, and no
    car changes place or booked flag again. *)
Theorem head_booking_past_its_path_wedges (book : Book) (rest : list Book)
    (k : nat) (s : State) (n : nat) :
  wedged book rest k s →
  (∃ s', increment_time (tick_requests n s) = IndexError s') ∧
  bookings (tick_requests n s) = bookings s ∧
  location <$> cars (tick_requests n s) = location <$> cars s ∧
  is_booked <$> cars (tick_requests n s) = is_booked <$> cars s.
Proof.
  revert s. induction n as [| n IH]; intros s Hw.
  - destruct (wedged_step book rest k s Hw) as (s' & Hrun & _).
    simpl. split; [by exists s' | done].
  - destruct (wedged_step book rest k s Hw) as (s' & Hrun & Hw' & Hloc & Hflag).
    simpl. rewrite Hrun.
    destruct (IH s' Hw') as (Hraise & Hbooks & Hloc' & Hflag').
    split; [done |]. rewrite Hbooks, Hloc', Hflag'.
    destruct Hw as [-> _], Hw' as [-> _]. done.
Qed.

Lemma spot_booked_wedged :
  wedged (mkBook (mkLocation 0 0) (mkLocation 0 0) 1 [mkLocation 0 0] 0) [] 0
    spot_booked.
Proof. split; [reflexivity |]. eexists. split; [reflexivity | simpl; lia]. Qed.

Lemma head_booking_past_its_path_wedges_witness :
  (∃ s', increment_time (tick_requests 5 spot_booked) = IndexError s') ∧
  bookings (tick_requests 5 spot_booked) = bookings spot_booked ∧
  location <$> cars (tick_requests 5 spot_booked)
  = location <$> cars spot_booked ∧
  is_booked <$> cars (tick_requests 5 spot_booked)
  = is_booked <$> cars spot_booked.
Proof.
  apply (head_booking_past_its_path_wedges
           (mkBook (mkLocation 0 0) (mkLocation 0 0) 1 [mkLocation 0 0] 0) [] 0).
  split; [reflexivity |]. eexists. split; [reflexivity | simpl; lia].
Defined.

(** ** A booking served alone *)

Lemma ticks_clock (n : nat) :
  ∀ s s', ticks n s = Returned s' →
          current_time s' = current_time s + Z.of_nat n.
Proof.
  induction n as [| n IH]; intros s s'; simpl.
  - intros [= ->]. lia.
  - destruct (increment_time_clock s) as (s1 & Hrun & Hclock).
    destruct (increment_time s) as [s1' | |]; [| done ..].
    injection Hrun as ->. intros ->%IH. lia.
Qed.

Lemma get_car_unique (s : State) (k : nat) (car : Car) :
  NoDup (car_id <$> cars s) →
  cars s !! k = Some car →
  get_car s (car_id car) = Some (k, car).
Proof.
  intros Hc Hk. apply list_find_Some. split_and!; [done | done |].
  intros j c Hj Hlt Heq.
  assert (k = j) by (by eapply car_position_unique). lia.
Qed.

Lemma ticks_reachable (n : nat) :
  ∀ s s', reachable s → ticks n s = Returned s' → reachable s'.
Proof.
  induction n as [| n IH]; intros s s' Hs; simpl; [by intros [= <-] |].
  destruct (increment_time s) as [s1 | |] eqn:Hrun; [| done ..].
  apply IH. apply (reachable_tick s s1 Hs). by rewrite Hrun.
Qed.

Lemma ticks_fleet (n : nat) :
  ∀ s s', ticks n s = Returned s' → fleet s' = fleet s.
Proof.
  induction n as [| n IH]; intros s s'; simpl; [by intros [= <-] |].
  destruct (increment_time s) as [s1 | |] eqn:Hrun; [| done ..].
  intros ->%IH. apply increment_time_fleet. by rewrite Hrun.
Qed.

(** The car at a position of a reached state is the one [get_car] finds
    for the id that position had before some calls of [increment_time]. *)
Lemma get_car_after_ticks (n : nat) (s s' : State) (id : Z) (k : nat)
    (car0 car : Car) :
  reachable s →
  ticks n s = Returned s' →
  get_car s id = Some (k, car0) →
  cars s' !! k = Some car →
  get_car s' id = Some (k, car).
Proof.
  intros Hs Hticks Hcar0 Hk.
  pose proof (ticks_reachable n s s' Hs Hticks) as (Hc & _)%reachable_inv.
  pose proof (get_car_Some _ _ _ _ Hcar0) as (Hk0 & <- & _).
  assert (car_id car = car_id car0) as <-; [| by apply get_car_unique].
  pose proof (ticks_fleet n s s' Hticks) as Hfleet.
  apply (f_equal (λ l, l !! k)) in Hfleet. unfold fleet in Hfleet.
  rewrite !list_lookup_fmap, Hk, Hk0 in Hfleet. simpl in Hfleet. congruence.
Qed.

(** X18. A booking made in a reached state with no other booking active,
    for a trip of at least one step, is served in exactly [total_time]
    calls of [increment_time]. The car that [get_car] finds for the
    booking's car id stays at one position [k] of the fleet; before the
    last of these calls the booking is still the active one and that car
    stands on cell [total_time - 1] of its path; after the last call there
    is no active booking, that car is unbooked at the destination, and the
    clock is [total_time] later. *)
Theorem sole_booking_takes_total_time (s s' : State) (pickup dest : Location)
    (book : Book) :
  reachable s →
  bookings s = [] →
  book_car s pickup dest = (s', Some book) →
  0 < total_time book →
  ∃ k,
    (∃ car0, get_car s' (book_car_id book) = Some (k, car0) ∧
             is_booked car0 = true) ∧
    (∃ s1 car1,
       ticks (Z.to_nat (total_time book) - 1) s' = Returned s1 ∧
       bookings s1 = [book] ∧
       get_car s1 (book_car_id book) = Some (k, car1) ∧
       path book !! (Z.to_nat (total_time book) - 1)%nat
       = Some (location car1)) ∧
    (∃ s2 car,
       ticks (Z.to_nat (total_time book)) s' = Returned s2 ∧
       bookings s2 = [] ∧
       get_car s2 (book_car_id book) = Some (k, car) ∧
       is_booked car = false ∧
       location car = dest ∧
       current_time s2 = current_time s + total_time book).
Proof.
  intros Hs Hnone Hbook Hpos.
  pose proof (reachable_inv s Hs) as (Hc & _).
  assert (Hs' : reachable s')
    by (pose proof (reachable_book s pickup dest Hs) as Hr;
        by rewrite Hbook in Hr).
  destruct (book_car_booking_made s s' pickup dest book Hbook)
    as (Hmade & _ & Hdest).
  destruct (booking_made_facts book Hmade) as (Htime & Hlast & _).
  assert (Hlen : length (path book) = S (S (Z.to_nat (total_time book) - 1)))
    by lia.
  destruct (book_car_en_route s s' pickup dest book Hc Hnone Hbook)
    as (k & Hroute & _).
  destruct (sole_booking_arrives book k _ s' Hroute Hlen)
    as [(s1 & Hticks1 & Hb1 & car1 & Hcar1 & _ & Hat1)
        (s2 & Hticks2 & Hb2 & car & Hk2 & Hfree & _ & Hloc)].
  rewrite Hlast in Hloc.
  replace (S (Z.to_nat (total_time book) - 1))
    with (Z.to_nat (total_time book)) in Hticks2 by lia.
  destruct Hroute as (_ & car0 & Hcar0 & _ & _).
  exists k. split_and!.
  - exists car0. split; [done |].
    apply (service_inv_car s' book k car0 (reachable_service_inv s' Hs'));
      [| done].
    assert (Hb' : bookings s' = [book]); [| rewrite Hb'; by left].
    unfold book_car in Hbook.
    destruct (find_nearest_available_car s pickup) as [[? ?] |]; [| done].
    injection Hbook as <- <-. simpl. by rewrite Hnone.
  - exists s1, car1. split_and!; done.
  - exists s2, car. split_and!; [done | done | | done | congruence |].
    + by apply (get_car_after_ticks (Z.to_nat (total_time book)) s' s2 _ k car0).
    + rewrite (ticks_clock _ _ _ Hticks2).
      assert (current_time s' = current_time s); [| lia].
      unfold book_car in Hbook.
      destruct (find_nearest_available_car s pickup) as [[? ?] |]; [| done].
      by injection Hbook as <- _.
Qed.

Lemma sole_booking_takes_total_time_witness :
  ∃ s2 car,
    ticks 2 (book_car (reset empty_state) (mkLocation 1 0)
               (mkLocation 0 0)).1 = Returned s2 ∧
    bookings s2 = [] ∧
    get_car s2 1 = Some (0%nat, car) ∧
    is_booked car = false ∧
    location car = mkLocation 0 0 ∧
    current_time s2 = 0 + 2.
Proof.
  destruct (sole_booking_takes_total_time (reset empty_state) _
              (mkLocation 1 0) (mkLocation 0 0) _
              (reachable_reset _ reachable_empty)
              eq_refl eq_refl eq_refl)
    as (k & (car0 & Hcar0 & _) & _ & Hafter).
  injection Hcar0 as <- _. exact Hafter.
Defined.

(** ** The booking behind an arrival *)

Lemma increment_time_loop_prefix fuel :
  ∀ index s s' i,
    outcome_state (increment_time_loop fuel index s) = Some s' →
    (i < index)%nat →
    bookings s' !! i = bookings s !! i.
Proof.
  induction fuel as [| fuel IH]; intros index s s' i; simpl.
  - destruct (bookings s !! index); [done | by intros [= <-]].
  - destruct (bookings s !! index) as [book |]; [| by intros [= <-]].
    destruct (get_car s (book_car_id book)) as [[k car] |];
      [| intros Hrun Hi; apply (IH _ _ _ i) in Hrun; [done | lia]].
    simpl. destruct (py_index _ _) as [loc |]; [| by intros [= <-]].
    case_bool_decide; intros Hrun Hi;
      (apply (IH _ _ _ i) in Hrun; [| lia]); rewrite Hrun; simpl; [| done].
    by apply list_lookup_delete_lt.
Qed.

(** X19. When the car of the first booking makes its last step, the call
    removes that booking (it is no longer in the list) and releases the car
    at the end of its path, and it passes over the booking next in the
    list: that one is the first booking afterwards, and its car has not
    moved. *)
Theorem booking_behind_arrival_waits (s : State) (book next : Book)
    (rest : list Book) (k : nat) (car : Car) :
  reachable s →
  bookings s = book :: next :: rest →
  get_car s (book_car_id book) = Some (k, car) →
  path_location_index car + 2 = Z.of_nat (length (path book)) →
  ∃ s' car' k2 car2,
    outcome_state (increment_time s) = Some s' ∧
    head (bookings s') = Some next ∧
    cars s' !! k = Some car' ∧
    is_booked car' = false ∧
    Some (location car') = last (path book) ∧
    get_car s (book_car_id next) = Some (k2, car2) ∧
    cars s' !! k2 = Some car2 ∧
    book ∉ bookings s'.
Proof.
  intros Hinv%reachable_service_inv Hb Hcar Hlast.
  assert (Hin : book ∈ bookings s) by (rewrite Hb; by left).
  assert (Hin2 : next ∈ bookings s) by (rewrite Hb; right; by left).
  destruct (service_inv_car s book k car Hinv Hin Hcar) as [Hflag Htr].
  destruct Hinv as ((Hc & Hnd & Hiff) & _ & Hbooks).
  destruct (Hbooks next Hin2) as (_ & k2 & car2 & Hcar2 & _).
  destruct (lookup_lt_is_Some_2 (path book)
              (Z.to_nat (path_location_index car + 1))) as [loc Hloc];
    [destruct Htr; lia |].
  assert (Hpy : py_index (path book) (path_location_index car + 1) = Some loc).
  { unfold py_index. destruct Htr. by rewrite !bool_decide_true by lia. }
  pose proof (increment_time_terminates s) as Hterm.
  destruct (outcome_state (increment_time s)) as [s' |] eqn:Hrun;
    [| by destruct (increment_time s)].
  pose proof (increment_time_skips_second s s' book next rest k car loc k2 car2
                Hnd Hb Hcar Hpy ltac:(lia) Hcar2 Hrun) as Hstay.
  unfold increment_time in Hrun. simpl in Hrun. rewrite Hb in Hrun.
  simpl length in Hrun.
  rewrite (increment_time_loop_arrive _ _ _ book k car) with (loc := loc)
    in Hrun; [| by simpl; rewrite Hb | exact Hcar | exact Hpy | lia].
  pose proof (get_car_Some _ _ _ _ Hcar) as (Hk & Hid & _).
  set (car' := set_path_location_index (-1)
                 (set_is_booked false
                    (set_location loc
                       (set_path_location_index
                          (path_location_index car + 1) car)))) in *.
  exists s', car', k2, car2. split_and!; [done | | | | | done | done |].
  - rewrite head_lookup.
    rewrite (increment_time_loop_prefix _ _ _ _ 0%nat Hrun) by lia.
    simpl. by rewrite Hb.
  - apply (increment_time_loop_frame _ _ _ _ k car') in Hrun;
      [exact Hrun | |].
    + simpl. apply list_lookup_insert_eq. by eapply lookup_lt_Some.
    + simpl. rewrite Hb. simpl. intros i b Hi Hbi Heq.
      destruct i as [| i]; [lia |]. simpl in Hbi.
      assert (b = book) as ->.
      { apply (booking_by_id s); [done | | done | congruence].
        rewrite Hb. right. right. by eapply list_elem_of_lookup_2. }
      assert (S (S i) = 0%nat); [| lia].
      apply (NoDup_lookup _ _ _ (book_car_id book) Hnd);
        rewrite Hb, list_lookup_fmap; simpl; [by rewrite Hbi | done].
  - done.
  - simpl. symmetry. apply (tracked_arrive book car loc); [done | done | lia].
  - pose proof (increment_time_loop_shrinks _ _ _ _ Hrun) as (Hsub & _).
    simpl in Hsub. rewrite Hb in Hsub. simpl in Hsub.
    intros Hgone%(elem_of_sublist _ (next :: rest)); [| done].
    apply list_elem_of_lookup in Hgone as [i Hi].
    assert (S i = 0%nat); [| lia].
    apply (NoDup_lookup _ _ _ (book_car_id book) Hnd);
      rewrite Hb, list_lookup_fmap; simpl; [| done].
    change ((next :: rest) !! i) with ((book :: next :: rest) !! S i) in Hi.
    simpl in Hi. by rewrite Hi.
Qed.

Lemma booking_behind_arrival_waits_witness :
  ∃ s' car' k2 car2,
    outcome_state (increment_time two_booked) = Some s' ∧
    head (bookings s') = Some second_booking ∧
    cars s' !! 0%nat = Some car' ∧
    is_booked car' = false ∧
    Some (location car') = Some (mkLocation 1 0) ∧
    get_car two_booked 2 = Some (k2, car2) ∧
    cars s' !! k2 = Some car2 ∧
    mkBook (mkLocation 0 0) (mkLocation 1 0) 1
      [mkLocation 0 0; mkLocation 1 0] 1 ∉ bookings s'.
Proof.
  apply (booking_behind_arrival_waits two_booked
           (mkBook (mkLocation 0 0) (mkLocation 1 0) 1
              [mkLocation 0 0; mkLocation 1 0] 1)
           second_booking [] 0
           (mkCar 1 "Toyota Prius" (mkLocation 0 0) true 0)).
  - do 2 apply reachable_book. apply reachable_reset, reachable_empty.
  - reflexivity.
  - reflexivity.
  - reflexivity.
Defined.

(** ** The first booking of the list *)

Lemma tick_requests_add (m n : nat) :
  ∀ s, tick_requests (m + n) s = tick_requests n (tick_requests m s).
Proof.
  induction m as [| m IH]; intros s; [done |].
  destruct (tick_requests_S (m + n) s) as (s1 & Hrun & Heq).
  destruct (tick_requests_S m s) as (s1' & Hrun' & Heq').
  rewrite Hrun in Hrun'. injection Hrun' as <-.
  change (S m + n)%nat with (S (m + n)). by rewrite Heq, Heq', IH.
Qed.

Section first_booking.
Variables (book : Book) (k : nat).

(** What one call does for the first booking, whatever the other bookings
    do: the iteration at position 0 comes first, and the rest of the loop
    neither touches that car nor the head of the list. *)
Lemma first_booking_step (j : nat) (s : State) :
  service_inv s →
  first_en_route book k j s →
  (S j < length (path book))%nat →
  ∃ s' car', outcome_state (increment_time s) = Some s' ∧
             service_inv s' ∧
             cars s' !! k = Some car' ∧
             car_id car' = book_car_id book ∧
             Some (location car') = path book !! S j ∧
             if decide (S (S j) = length (path book))
             then is_booked car' = false ∧ book ∉ bookings s'
             else first_en_route book k (S j) s'.
Proof.
  intros Hinv (Hhead & car & Hcar & Hidx & Hat) Hlt.
  destruct (bookings s) as [| book0 rest] eqn:Hb; [done |].
  injection Hhead as ->.
  destruct (lookup_lt_is_Some_2 (path book) (S j)) as [loc Hnext]; [lia |].
  assert (Hpy : py_index (path book) (path_location_index car + 1) = Some loc).
  { rewrite Hidx. replace (Z.of_nat j + 1) with (Z.of_nat (S j)) by lia.
    by rewrite py_index_nat. }
  pose proof (increment_time_terminates s) as Hterm.
  destruct (outcome_state (increment_time s)) as [s' |] eqn:Hrun;
    [| by destruct (increment_time s)].
  pose proof (increment_time_service_inv s s' Hinv Hrun) as Hinv'.
  pose proof (get_car_Some _ _ _ _ Hcar) as (Hk & Hid & _).
  assert (Hnd : NoDup (book_car_id <$> bookings s)) by apply Hinv.
  assert (Hothers : ∀ i b, (1 ≤ i)%nat → (book :: rest) !! i = Some b →
                           book_car_id b ≠ book_car_id book).
  { intros i b Hi Hbi Heq. assert (i = 0%nat); [| lia].
    apply (NoDup_lookup _ _ _ (book_car_id book) Hnd);
      rewrite Hb, list_lookup_fmap; [rewrite Hbi; simpl; by rewrite Heq | done]. }
  unfold increment_time in Hrun. simpl in Hrun. rewrite Hb in Hrun.
  simpl length in Hrun.
  destruct (decide (S (S j) = length (path book))) as [Hend | Hmore].
  - rewrite (increment_time_loop_arrive _ _ _ book k car) with (loc := loc)
      in Hrun; [| by simpl; rewrite Hb | exact Hcar | exact Hpy | lia].
    pose proof (increment_time_loop_shrinks _ _ _ _ Hrun) as (Hsub & _).
    apply (increment_time_loop_frame _ _ _ _ k
             (set_path_location_index (-1)
                (set_is_booked false
                   (set_location loc
                      (set_path_location_index
                         (path_location_index car + 1) car))))) in Hrun.
    + eexists s', _. split_and!; [done | done | exact Hrun | done | done | done |].
      simpl in Hsub. rewrite Hb in Hsub. simpl in Hsub.
      intros Hin%(elem_of_sublist _ rest); [| done].
      apply list_elem_of_lookup in Hin as [i Hi].
      by apply (Hothers (S i) book); [lia | |].
    + simpl. apply list_lookup_insert_eq. by eapply lookup_lt_Some.
    + simpl. rewrite Hb. simpl. intros i b Hi Hbi.
      rewrite Hid. apply (Hothers (S i) b); [lia | done].
  - rewrite (increment_time_loop_move _ _ _ book k car) with (loc := loc)
      in Hrun; [| by simpl; rewrite Hb | exact Hcar | exact Hpy | lia].
    pose proof (increment_time_loop_prefix _ _ _ _ 0%nat Hrun) as Hfirst.
    apply (increment_time_loop_frame _ _ _ _ k
             (set_location loc
                (set_path_location_index (path_location_index car + 1) car)))
      in Hrun.
    + eexists s', _. split_and!; [done | done | exact Hrun | done | done |].
      split.
      * rewrite head_lookup, Hfirst by lia. simpl. by rewrite Hb.
      * exists (set_location loc
                  (set_path_location_index (path_location_index car + 1) car)).
        split_and!; [| simpl; lia | exact Hnext].
        pose proof (get_car_unique s' k _ (proj1 (proj1 Hinv')) Hrun) as Hg.
        simpl in Hg. by rewrite Hid in Hg.
    + simpl. apply list_lookup_insert_eq. by eapply lookup_lt_Some.
    + simpl. rewrite Hb. intros i b Hi Hbi.
      rewrite Hid. apply (Hothers i b); [lia | done].
Qed.

Lemma first_booking_advances (m : nat) :
  ∀ (j : nat) (s : State),
    service_inv s →
    first_en_route book k j s →
    (S (j + m) < length (path book))%nat →
    service_inv (tick_requests m s) ∧
    first_en_route book k (j + m) (tick_requests m s).
Proof.
  induction m as [| m IH]; intros j s Hinv Hroute Hlt.
  - by rewrite Nat.add_0_r.
  - destruct (first_booking_step j s Hinv Hroute)
      as (s1 & car1 & Hrun & Hinv1 & _ & _ & _ & Hnext); [lia |].
    rewrite decide_False in Hnext by lia.
    destruct (tick_requests_S m s) as (s1' & Hrun' & ->).
    rewrite Hrun in Hrun'. injection Hrun' as <-.
    replace (j + S m)%nat with (S j + m)%nat by lia.
    apply IH; [done | done | lia].
Qed.

End first_booking.

(** X20. The first booking of the list is never held up, whatever the
    bookings behind it do and whether the calls return or raise: with
    [n + 2] path cells and its car at index 0, after [m ≤ n] [/tick]
    requests it is still first and its car stands on cell [m]; the request
    after the [n]-th brings the car to the destination, releases it and
    removes the booking. *)
Theorem first_booking_is_never_delayed (s : State) (book : Book)
    (rest : list Book) (k : nat) (car : Car) (n : nat) :
  reachable s →
  bookings s = book :: rest →
  get_car s (book_car_id book) = Some (k, car) →
  path_location_index car = 0 →
  length (path book) = S (S n) →
  (∀ m, (m ≤ n)%nat → first_en_route book k m (tick_requests m s)) ∧
  ∃ car', cars (tick_requests (S n) s) !! k = Some car' ∧
          is_booked car' = false ∧
          location car' = destination book ∧
          book ∉ bookings (tick_requests (S n) s).
Proof.
  intros Hinv%reachable_service_inv Hb Hcar Hidx Hlen.
  assert (Hin : book ∈ bookings s) by (rewrite Hb; by left).
  destruct (service_inv_car s book k car Hinv Hin Hcar) as [_ Htr].
  assert (Hmade : booking_made book) by (by apply Hinv).
  destruct (booking_made_facts book Hmade) as (_ & Hlast & _).
  assert (Hstart : first_en_route book k 0 s).
  { split; [by rewrite Hb |]. exists car. split_and!; [done | lia |].
    destruct Htr as [_ [[_ Hat] | Hone]]; [by rewrite Hidx in Hat |].
    rewrite Hone in Hlen. done. }
  split.
  - intros m Hm.
    by apply (first_booking_advances book k m 0 s); [| | lia].
  - destruct (first_booking_advances book k n 0 s Hinv Hstart)
      as [Hinv_n Hroute_n]; [lia |].
    destruct (first_booking_step book k n _ Hinv_n Hroute_n)
      as (s' & car' & Hrun & _ & Hk' & _ & Hloc & Hend); [lia |].
    rewrite decide_True in Hend by lia. destruct Hend as [Hfree Hgone].
    replace (S n) with (n + 1)%nat by lia. rewrite tick_requests_add.
    destruct (tick_requests_S 0 (tick_requests n s)) as (s'' & Hrun' & ->).
    rewrite Hrun in Hrun'. injection Hrun' as <-. simpl.
    exists car'. split_and!; [done | done | | done].
    rewrite last_lookup, Hlen in Hlast. simpl in Hlast.
    rewrite Hlast in Hloc. congruence.
Qed.

Lemma first_booking_is_never_delayed_witness :
  ∃ car', cars (tick_requests 1 two_booked) !! 0%nat = Some car' ∧
          is_booked car' = false ∧
          location car' = mkLocation 1 0 ∧
          mkBook (mkLocation 0 0) (mkLocation 1 0) 1
            [mkLocation 0 0; mkLocation 1 0] 1
          ∉ bookings (tick_requests 1 two_booked).
Proof.
  apply (first_booking_is_never_delayed two_booked
           (mkBook (mkLocation 0 0) (mkLocation 1 0) 1
              [mkLocation 0 0; mkLocation 1 0] 1)
           [second_booking] 0
           (mkCar 1 "Toyota Prius" (mkLocation 0 0) true 0) 0).
  - do 2 apply reachable_book. apply reachable_reset, reachable_empty.
  - reflexivity.
  - reflexivity.
  - reflexivity.
  - reflexivity.
Defined.
